(** * ComPoM: polynomial mixer, aggregation and streaming state

    A shallow embedding of [models/compom_no_selection.py] in exact real
    arithmetic.  A torch tensor is a shape together with an indexing
    function; every torch operation the module calls is written with the
    shape check torch performs, so that a call which raises in Python is an
    [Err] here. *)

From Stdlib Require Import String DecimalString.
From Stdlib Require Import Reals Lra Lia ZArith Bool List.
Import ListNotations.

Local Open Scope R_scope.

(** ** Scalars *)

Module Scalar.

(** The integrand of the error function. *)
Definition gauss (t : R) : R := exp (- (t * t)).

Definition gauss_continuity : continuity gauss.
Proof.
  unfold gauss.
  apply (continuity_comp (fun t => - (t * t)) exp).
  - apply continuity_opp.
    apply continuity_mult; apply derivable_continuous, derivable_id.
  - apply derivable_continuous, derivable_exp.
Defined.

(** [gauss] is continuous, hence integrable on every segment, in either
    orientation of its bounds. *)
Definition gauss_integrable (a b : R) : Riemann_integrable gauss a b.
Proof.
  destruct (Rle_dec a b) as [Hab | Hab].
  - apply continuity_implies_RiemannInt; [exact Hab |].
    intros x _. apply gauss_continuity.
  - apply RiemannInt_P1.
    apply continuity_implies_RiemannInt; [lra |].
    intros x _. apply gauss_continuity.
Defined.

(** erf(x) = 2/sqrt(pi) * integral of exp(-t^2) between 0 and x. *)
Definition erf (x : R) : R :=
  2 / sqrt PI * RiemannInt (gauss_integrable 0 x).

(** [F.gelu] with its default [approximate='none']:
    gelu(x) = x * 1/2 * (1 + erf (x / sqrt 2)). *)
Definition gelu (x : R) : R := x * (1 / 2) * (1 + erf (x / sqrt 2)).

(** The stabiliser [1.e-7] of the two mask mixers. *)
Definition eps : R := 1e-7.

End Scalar.

Import Scalar.

(** ** Errors *)

(** The exceptions the module can raise: torch's [RuntimeError] on a shape
    mismatch, [IndexError] on a dimension out of range, and the module's
    own [ValueError] with its message. *)
Inductive error : Type :=
| RuntimeError
| IndexError
| ValueError (msg : string).

Inductive result (A : Type) : Type :=
| Ok (a : A)
| Err (e : error).

Arguments Ok {A} a.
Arguments Err {A} e.

Definition bind {A B : Type} (r : result A) (f : A -> result B) : result B :=
  match r with
  | Ok a => f a
  | Err e => Err e
  end.

Notation "x <- r ;; k" := (bind r (fun x => k))
  (at level 61, r at next level, right associativity).
Notation "' p <- r ;; k" := (bind r (fun x => let p := x in k))
  (at level 61, p pattern, r at next level, right associativity).

(** ** Tensors *)

Record tensor : Type := mkT {
  shape : list nat;
  data : list nat -> R
}.

(** [t.dim()] *)
Definition dim (t : tensor) : nat := length (shape t).



(** Sum of [f 0 .. f (n-1)]. *)
Fixpoint rsum (n : nat) (f : nat -> R) : R :=
  match n with
  | O => 0
  | S n' => rsum n' f + f n'
  end.

(** [l] with position [d] replaced by [v] (unchanged when [d] is out of
    range). *)
Fixpoint upd (d : nat) (v : nat) (l : list nat) : list nat :=
  match l, d with
  | [], _ => []
  | _ :: l', O => v :: l'
  | a :: l', S d' => a :: upd d' v l'
  end.

(** *** Broadcasting *)

(** Two sizes broadcast when they are equal or one of them is 1. *)
Definition bdim (a b : nat) : option nat :=
  if a =? b then Some a
  else if a =? 1 then Some b
  else if b =? 1 then Some a
  else None.

(** Shapes are aligned on their trailing dimension: the recursion runs over
    the reversed shapes. *)
Fixpoint bshape_rev (s1 s2 : list nat) : option (list nat) :=
  match s1, s2 with
  | [], s => Some s
  | s, [] => Some s
  | a :: s1', b :: s2' =>
      match bdim a b, bshape_rev s1' s2' with
      | Some c, Some r => Some (c :: r)
      | _, _ => None
      end
  end.

Definition broadcast_shapes (s1 s2 : list nat) : option (list nat) :=
  option_map (@rev nat) (bshape_rev (rev s1) (rev s2)).

(** The component read in an operand of size [n] for position [i] of the
    broadcast result. *)
Definition bi (n i : nat) : nat := if n =? 1 then 0 else i.

Fixpoint bidx_rev (s idx : list nat) : list nat :=
  match s, idx with
  | [], _ => []
  | _ :: _, [] => []
  | n :: s', i :: idx' => bi n i :: bidx_rev s' idx'
  end.

(** The index read in an operand of shape [s] for index [idx] of the
    broadcast result. *)
Definition bidx (s idx : list nat) : list nat :=
  rev (bidx_rev (rev s) (rev idx)).

(** *** Elementwise operations *)

Definition tmap (f : R -> R) (t : tensor) : tensor :=
  mkT (shape t) (fun idx => f (data t idx)).

(** [a op b] with broadcasting. *)
Definition binop (f : R -> R -> R) (a b : tensor) : result tensor :=
  match broadcast_shapes (shape a) (shape b) with
  | Some s =>
      Ok (mkT s (fun idx =>
                   f (data a (bidx (shape a) idx)) (data b (bidx (shape b) idx))))
  | None => Err RuntimeError
  end.

Definition tmul : tensor -> tensor -> result tensor := binop Rmult.
Definition tadd : tensor -> tensor -> result tensor := binop Rplus.
Definition tdiv : tensor -> tensor -> result tensor := binop Rdiv.

(** [c * t], [c + t], [t / c] and [t ** i] for a Python number. *)
Definition smul (c : R) (t : tensor) : tensor := tmap (Rmult c) t.
Definition sadd (c : R) (t : tensor) : tensor := tmap (Rplus c) t.
Definition sdiv (t : tensor) (c : R) : tensor := tmap (fun v => v / c) t.
Definition tpow (t : tensor) (i : nat) : tensor := tmap (fun v => v ^ i) t.

(** *** Shape operations *)

(** [t.unsqueeze(-1)] *)
Definition unsqueeze_last (t : tensor) : tensor :=
  mkT (shape t ++ [1%nat]) (fun idx => data t (removelast idx)).

Definition list_eqb (l1 l2 : list nat) : bool :=
  if list_eq_dec Nat.eq_dec l1 l2 then true else false.

Fixpoint cat_data (ts : list tensor) (pre : list nat) (i : nat) : R :=
  match ts with
  | [] => 0
  | t :: ts' =>
      let n := last (shape t) 0%nat in
      if i <? n then data t (pre ++ [i]) else cat_data ts' pre (i - n)
  end.

(** [torch.cat(ts, dim=-1)]: a non-empty list of tensors of rank at least 1
    that agree on every dimension but the last. *)
Definition cat_last (ts : list tensor) : result tensor :=
  match ts with
  | [] => Err RuntimeError
  | t0 :: _ =>
      if forallb (fun t => (0 <? dim t)%nat
                           && list_eqb (removelast (shape t)) (removelast (shape t0))) ts
      then Ok (mkT (removelast (shape t0)
                      ++ [list_sum (map (fun t => last (shape t) 0%nat) ts)])
                   (fun idx => cat_data ts (removelast idx) (last idx 0%nat)))
      else Err RuntimeError
  end.

(** [t.expand(tgt)]: sizes are aligned on the trailing dimension; a size of
    the tensor must be 1 or equal to the target's. *)
Fixpoint expandable_rev (s tgt : list nat) : bool :=
  match s, tgt with
  | [], _ => true
  | _ :: _, [] => false
  | a :: s', b :: tgt' => ((a =? b) || (a =? 1)) && expandable_rev s' tgt'
  end.

Definition expand (t : tensor) (tgt : list nat) : result tensor :=
  if expandable_rev (rev (shape t)) (rev tgt)
  then Ok (mkT tgt (fun idx => data t (bidx (shape t) idx)))
  else Err RuntimeError.

(** *** Reductions *)

(** [t.sum(-1)]; a tensor of rank 0 is its own sum. *)
Definition sum_last (t : tensor) : tensor :=
  match rev (shape t) with
  | [] => t
  | n :: _ => mkT (removelast (shape t))
                  (fun idx => rsum n (fun j => data t (idx ++ [j])))
  end.

(** [t.sum(dim=d, keepdims=True)] *)
Definition sum_keep (d : nat) (t : tensor) : result tensor :=
  match nth_error (shape t) d with
  | None => Err IndexError
  | Some n => Ok (mkT (upd d 1%nat (shape t))
                      (fun idx => rsum n (fun j => data t (upd d j idx))))
  end.

(** [t.mean(dim=d, keepdims=True)] *)
Definition mean_keep (d : nat) (t : tensor) : result tensor :=
  match nth_error (shape t) d with
  | None => Err IndexError
  | Some n => Ok (mkT (upd d 1%nat (shape t))
                      (fun idx => rsum n (fun j => data t (upd d j idx)) / INR n))
  end.

(** [torch.einsum('bnd, bmn -> bmd', h, mask)]: both operands have rank 3;
    sizes under one letter broadcast. *)
Definition einsum_bnd_bmn_bmd (h mask : tensor) : result tensor :=
  match shape h, shape mask with
  | [hb; hn; hd], [mb; mm; mn] =>
      match bdim hb mb, bdim hn mn with
      | Some b, Some n =>
          Ok (mkT [b; mm; hd]
                (fun idx =>
                   match idx with
                   | [ib; im; id] =>
                       rsum n (fun j => data h [bi hb ib; bi hn j; id]
                                        * data mask [bi mb ib; im; bi mn j])
                   | _ => 0
                   end))
      | _, _ => Err RuntimeError
      end
  | _, _ => Err RuntimeError
  end.

(** [t.shape[d]] *)
Definition shape_at (t : tensor) (d : nat) : result nat :=
  match nth_error (shape t) d with
  | Some n => Ok n
  | None => Err IndexError
  end.

(** *** Literals *)

(** [torch.full(s, v)] *)
Definition full (s : list nat) (v : R) : tensor := mkT s (fun _ => v).

(** [torch.tensor(rows)] for a list of rows and for a list of matrices. *)
Definition tensor2 (rows : list (list R)) : tensor :=
  mkT [length rows; length (hd [] rows)]
      (fun idx => match idx with
                  | [i; j] => nth j (nth i rows []) 0
                  | _ => 0
                  end).

Definition tensor3 (mats : list (list (list R))) : tensor :=
  mkT [length mats; length (hd [] mats); length (hd [] (hd [] mats))]
      (fun idx => match idx with
                  | [i; j; l] => nth l (nth j (nth i mats []) []) 0
                  | _ => 0
                  end).

(** ** The module *)

(** *** Core polynomial functions *)

(** [po2]: h, h*h, concatenated and contracted with [coeff]. *)
Definition po2 (x coeff : tensor) : result tensor :=
  let h := unsqueeze_last (tmap gelu x) in
  h2 <- tmul h h ;;
  h <- cat_last [h; h2] ;;
  hc <- tmul h coeff ;;
  Ok (sum_last hc).

(** [po3]: h, h*h, (h*h)*h. *)
Definition po3 (x coeff : tensor) : result tensor :=
  let h := unsqueeze_last (tmap gelu x) in
  h2 <- tmul h h ;;
  h3 <- tmul h2 h ;;
  h <- cat_last [h; h2; h3] ;;
  hc <- tmul h coeff ;;
  Ok (sum_last hc).

(** [po4]: h, h*h, (h*h)*h, ((h*h)*h)*h. *)
Definition po4 (x coeff : tensor) : result tensor :=
  let h := unsqueeze_last (tmap gelu x) in
  h2 <- tmul h h ;;
  h3 <- tmul h2 h ;;
  h4 <- tmul h3 h ;;
  h <- cat_last [h; h2; h3; h4] ;;
  hc <- tmul h coeff ;;
  Ok (sum_last hc).

(** [range(k)] for a Python integer: empty when [k <= 0]. *)
Definition range (k : Z) : list nat := seq 0 (Z.to_nat k).

(** The [else] branch of [polynomial_aggregation_]:
    [torch.cat([h ** i for i in range(k)], dim=-1)], contracted with
    [coeff]. *)
Definition generic_expansion (x coeff : tensor) (k : Z) : result tensor :=
  let h := unsqueeze_last (tmap gelu x) in
  h <- cat_last (map (fun i => tpow h i) (range k)) ;;
  hc <- tmul h coeff ;;
  Ok (sum_last hc).

(** The dispatch on [k] that opens [polynomial_aggregation_]. *)
Definition expansion (x coeff : tensor) (k : Z) : result tensor :=
  if (k =? 2)%Z then po2 x coeff
  else if (k =? 3)%Z then po3 x coeff
  else if (k =? 4)%Z then po4 x coeff
  else generic_expansion x coeff k.

(** *** Masking and aggregation *)

(** [(h * mask.unsqueeze(-1)).sum(dim=1, keepdims=True)
      / (1.e-7 + mask.unsqueeze(-1).sum(dim=1, keepdims=True))] *)
Definition mask_mixer (h mask : tensor) : result tensor :=
  hm <- tmul h (unsqueeze_last mask) ;;
  num <- sum_keep 1 hm ;;
  den <- sum_keep 1 (unsqueeze_last mask) ;;
  tdiv num (sadd eps den).

(** [h = torch.einsum('bnd, bmn -> bmd', h, mask)] then
    [h / (1.e-7 + mask.sum(dim=2, keepdims=True))]; [mask.type(h.dtype)]
    changes no value. *)
Definition full_mask_mixer (h mask : tensor) : result tensor :=
  h <- einsum_bnd_bmn_bmd h mask ;;
  den <- sum_keep 2 mask ;;
  tdiv h (sadd eps den).

Local Open Scope string_scope.

(** [f'Unsupported mask dimension: {mask.dim()}. Expected 2, 3, or None.'] *)
Definition unsupported_mask_dimension (r : nat) : string :=
  "Unsupported mask dimension: " ++ NilEmpty.string_of_uint (Nat.to_uint r)
    ++ ". Expected 2, 3, or None.".

Local Close Scope string_scope.

(** The reduction that closes [polynomial_aggregation_], before the final
    [expand]. *)
Definition reduce (h : tensor) (mask : option tensor) : result tensor :=
  match mask with
  | None => mean_keep 1 h
  | Some m =>
      if (dim m =? 2)%nat then mask_mixer h m
      else if (dim m =? 3)%nat then full_mask_mixer h m
      else Err (ValueError (unsupported_mask_dimension (dim m)))
  end.

(** Expansion, reduction, then [h.expand(x.shape)]. *)
Definition polynomial_aggregation_
  (x coeff : tensor) (k : Z) (mask : option tensor) : result tensor :=
  h <- expansion x coeff k ;;
  h <- reduce h mask ;;
  expand h (shape x).

(** [pom] hands its arguments to [polynomial_aggregation_]. *)
Definition pom (xc coeff : tensor) (k : Z) (mask : option tensor) : result tensor :=
  polynomial_aggregation_ xc coeff k mask.

(** *** ComPoM *)

(** [nn.Linear(in_features, out_features, bias)]: the weight has shape
    (out_features, in_features). *)
Record Linear : Type := mkLinear {
  in_features : nat;
  out_features : nat;
  weight : nat -> nat -> R;
  bias : option (nat -> R)
}.

(** [F.linear]: the last dimension of the input must be [in_features]. *)
Definition linear (l : Linear) (x : tensor) : result tensor :=
  match rev (shape x) with
  | [] => Err RuntimeError
  | n :: _ =>
      if (n =? in_features l)%nat
      then Ok (mkT (removelast (shape x) ++ [out_features l])
                 (fun idx =>
                    rsum (in_features l)
                      (fun i => data x (removelast idx ++ [i])
                                * weight l (last idx 0%nat) i)
                    + match bias l with
                      | Some b => b (last idx 0%nat)
                      | None => 0
                      end))
      else Err RuntimeError
  end.

(** The attributes of the module; [dim_] is [self.dim]. *)
Record ComPoM : Type := mkComPoM {
  dim_ : nat;
  order : Z;
  order_expand : nat;
  po_proj : Linear;
  po_coeff : tensor;
  ag_proj : Linear
}.

(** What [__init__] establishes between the fields. *)
Definition constructed (m : ComPoM) : Prop :=
  in_features (po_proj m) = dim_ m
  /\ out_features (po_proj m) = (order_expand m * dim_ m)%nat
  /\ shape (po_coeff m) = [(dim_ m * order_expand m)%nat; Z.to_nat (order m)]
  /\ in_features (ag_proj m) = (order_expand m * dim_ m)%nat
  /\ out_features (ag_proj m) = dim_ m.

(** [ComPoM.forward]: the context defaults to the query. *)
Definition forward (m : ComPoM) (xq : tensor) (xc mask : option tensor)
  : result tensor :=
  let xc := match xc with None => xq | Some c => c end in
  h <- linear (po_proj m) xc ;;
  sh <- pom h (po_coeff m) (order m) mask ;;
  linear (ag_proj m) sh.

(** The state dictionary [{'h': h, 'n': n}]. *)
Record state : Type := mkState {
  st_h : tensor;
  st_n : nat
}.

(** [ComPoM.state_forward]: the chunk aggregate is merged with the prior
    state, whose count [n_past] is 0 when there is none. *)
Definition state_forward (m : ComPoM) (xq : tensor) (xc : option tensor)
  (st : option state) : result (tensor * state) :=
  let xc := match xc with None => xq | Some c => c end in
  xc <- linear (po_proj m) xc ;;
  h_current <- polynomial_aggregation_ xc (po_coeff m) (order m) None ;;
  n_current <- shape_at h_current 1 ;;
  '(h, n_past) <-
    match st with
    | Some s =>
        let h_past := st_h s in
        let n_past := st_n s in
        num <- tadd (smul (INR n_past) h_past) (smul (INR n_current) h_current) ;;
        Ok (sdiv num (INR (n_past + n_current)), n_past)
    | None => Ok (h_current, 0%nat)
    end ;;
  out <- linear (ag_proj m) h ;;
  Ok (out, mkState h (n_past + n_current)).

(** Streaming: the chunks are fed one after the other, each call receiving
    the state the previous one returned. *)
Fixpoint stream (m : ComPoM) (chunks : list tensor) (st : option state)
  : result (option state) :=
  match chunks with
  | [] => Ok st
  | c :: cs =>
      '(_, st') <- state_forward m c None st ;;
      stream m cs (Some st')
  end.

(** ** The expansion as the specification words it *)

(** Powers 1..k of the activated input, contracted with the coefficients:
    entry (b,t,d) is the sum over i < k of gelu(x[b,t,d])^(i+1) * coeff[d,i]. *)
Definition expansion_spec (x coeff : tensor) (k : nat) : tensor :=
  mkT (shape x)
      (fun idx => rsum k (fun i => gelu (data x idx) ^ (S i)
                                   * data coeff [last idx 0%nat; i])).

(** ** Quantities the statements are written with *)

(** The count held by an optional state; no state counts for nothing. *)
Definition count (st : option state) : nat :=
  match st with
  | None => 0%nat
  | Some s => st_n s
  end.

(** The sequence length of a (batch, sequence, channel) tensor. *)
Definition seq_len (t : tensor) : nat := nth 1 (shape t) 0%nat.

(** The lowest power the dispatch on [k] contracts: the closed forms start
    at h, the loop at h ** 0. *)
Definition first_power (k : Z) : nat :=
  if ((k =? 2) || (k =? 3) || (k =? 4))%Z then 1%nat else 0%nat.

(** Entry d of the expansion, as a function of the entry v of the input. *)
Definition poly (coeff : tensor) (k : Z) (d : nat) (v : R) : R :=
  rsum (Z.to_nat k)
       (fun i => gelu v ^ (first_power k + i) * data coeff [d; i]).

(** Entry (b, t, o) of [F.linear] on a (batch, sequence, channel) input. *)
Definition projected (l : Linear) (x : tensor) (b t o : nat) : R :=
  rsum (in_features l) (fun i => data x [b; t; i] * weight l o i)
  + match bias l with
    | Some c => c o
    | None => 0
    end.

(** The mean over a chunk of the expansion of its projection: what the
    aggregation without mask puts at every position. *)
Definition chunk_mean (m : ComPoM) (x : tensor) (b d : nat) : R :=
  rsum (seq_len x)
       (fun n => poly (po_coeff m) (order m) d (projected (po_proj m) x b n d))
  / INR (seq_len x).

(** [torch.cat([a, b], dim=1)] for two chunks that agree on batch and
    channel: the full sequence that streaming is compared with. *)
Definition cat_seq (a b : tensor) : tensor :=
  mkT (upd 1 (seq_len a + seq_len b) (shape a))
      (fun idx =>
         match idx with
         | [i; t; d] =>
             if (t <? seq_len a)%nat then data a [i; t; d]
             else data b [i; (t - seq_len a)%nat; d]
         | _ => 0
         end).

(** ** Sample inputs *)

(** A single position, a single channel. *)
Definition x_zero : tensor := tensor3 [[[0]]].
Definition x_one : tensor := tensor3 [[[1]]].

(** Chunks of two and of three positions, one channel. *)
Definition chunk2 : tensor := tensor3 [[[1]; [1]]].
Definition chunk3 : tensor := tensor3 [[[1]; [1]; [1]]].

(** Coefficients (dim = 1) that select the first concatenated term. *)
Definition coeff_first2 : tensor := tensor2 [[1; 0]].
Definition coeff_first3 : tensor := tensor2 [[1; 0; 0]].
Definition coeff_first5 : tensor := tensor2 [[1; 0; 0; 0; 0]].

(** [torch.ones(s)] *)
Definition ones (s : list nat) : tensor := full s 1.

(** [ComPoM(dim=1, degree=2, expand=1, bias=False)] with unit weights. *)
Definition unit_linear : Linear := mkLinear 1 1 (fun _ _ => 1) None.
Definition unit_module : ComPoM :=
  mkComPoM 1 2 1 unit_linear coeff_first2 unit_linear.

(** Coefficients with a single column, a mask that keeps the second of two
    positions with weight 2, and the lower-triangular mask on two positions. *)
Definition coeff_unit : tensor := tensor2 [[1]].
Definition mask_second : tensor := tensor2 [[0; 2]].
Definition tril2 : tensor := tensor3 [[[1; 0]; [1; 1]]].

(** The sum of the means of a list of chunks, at batch row b and channel d. *)
Definition sum_chunk_means (m : ComPoM) (cs : list tensor) (b d : nat) : R :=
  fold_right (fun c acc => chunk_mean m c b d + acc) 0 cs.

(** ** The activation *)

Lemma eps_pos : 0 < eps.
Proof. unfold eps. lra. Qed.

Lemma gauss_pos (t : R) : 0 < gauss t.
Proof. apply exp_pos. Qed.

Lemma erf_nonneg (x : R) : 0 <= x -> 0 <= erf x.
Proof.
  intros Hx. unfold erf.
  apply Rmult_le_pos.
  - apply Rlt_le, Rdiv_lt_0_compat; [lra |].
    apply sqrt_lt_R0, PI_RGT_0.
  - pose proof (RiemannInt_P15 (RiemannInt_P14 0 x 0)) as Hcte.
    apply Rle_trans with (RiemannInt (RiemannInt_P14 0 x 0)); [lra |].
    apply RiemannInt_P19; [exact Hx |].
    intros t _. unfold fct_cte. apply Rlt_le, gauss_pos.
Qed.

Lemma gelu_0 : gelu 0 = 0.
Proof. unfold gelu. lra. Qed.

Lemma gelu_pos (x : R) : 0 < x -> 0 < gelu x.
Proof.
  intros Hx. unfold gelu.
  assert (Hs : 0 < sqrt 2) by (apply sqrt_lt_R0; lra).
  assert (He : 0 <= erf (x / sqrt 2)).
  { apply erf_nonneg, Rlt_le, Rdiv_lt_0_compat; assumption. }
  apply Rmult_lt_0_compat; [lra | lra].
Qed.

(** ** Sums and broadcasting *)

Lemma rsum_ext (n : nat) (f g : nat -> R) :
  (forall i, (i < n)%nat -> f i = g i) -> rsum n f = rsum n g.
Proof.
  induction n as [| n IH]; intros H; simpl; [reflexivity |].
  rewrite IH by (intros i Hi; apply H; lia).
  rewrite (H n) by lia. reflexivity.
Qed.

Lemma rsum_zero (n : nat) (f : nat -> R) :
  (forall i, (i < n)%nat -> f i = 0) -> rsum n f = 0.
Proof.
  induction n as [| n IH]; intros H; simpl; [reflexivity |].
  rewrite IH by (intros i Hi; apply H; lia).
  rewrite (H n) by lia. lra.
Qed.

Lemma rsum_const (n : nat) (c : R) : rsum n (fun _ => c) = INR n * c.
Proof.
  induction n as [| n IH]; [simpl; lra |].
  cbn [rsum]. rewrite IH, S_INR. lra.
Qed.

Lemma rsum_scal (n : nat) (c : R) (f : nat -> R) :
  rsum n (fun i => f i * c) = rsum n f * c.
Proof.
  induction n as [| n IH]; simpl; [lra |]. rewrite IH. lra.
Qed.

Lemma rsum_plus (n : nat) (f g : nat -> R) :
  rsum n (fun i => f i + g i) = rsum n f + rsum n g.
Proof.
  induction n as [| n IH]; simpl; [lra |]. rewrite IH. lra.
Qed.

Lemma rsum_app (n p : nat) (f : nat -> R) :
  rsum (n + p) f = rsum n f + rsum p (fun i => f (n + i)%nat).
Proof.
  induction p as [| p IH].
  - rewrite Nat.add_0_r. simpl. lra.
  - rewrite Nat.add_succ_r. cbn [rsum]. rewrite IH. lra.
Qed.

Lemma bdim_refl (n : nat) : bdim n n = Some n.
Proof. unfold bdim. now rewrite Nat.eqb_refl. Qed.

Lemma bdim_1_r (n : nat) : bdim n 1 = Some n.
Proof.
  unfold bdim. destruct (Nat.eqb_spec n 1) as [-> | _]; reflexivity.
Qed.

Lemma bdim_1_l (n : nat) : bdim 1 n = Some n.
Proof.
  unfold bdim. destruct (Nat.eqb_spec 1 n) as [<- | _]; reflexivity.
Qed.

Lemma bdim_some (a b c : nat) :
  bdim a b = Some c -> a = b \/ a = 1%nat \/ b = 1%nat.
Proof.
  unfold bdim.
  destruct (Nat.eqb_spec a b); [auto |].
  destruct (Nat.eqb_spec a 1); [auto |].
  destruct (Nat.eqb_spec b 1); [auto | discriminate].
Qed.

Lemma bdim_none (a b : nat) :
  a <> b -> a <> 1%nat -> b <> 1%nat -> bdim a b = None.
Proof.
  intros Hab Ha Hb. unfold bdim.
  destruct (Nat.eqb_spec a b); [contradiction |].
  destruct (Nat.eqb_spec a 1); [contradiction |].
  destruct (Nat.eqb_spec b 1); [contradiction | reflexivity].
Qed.

Lemma bi_lt (n i : nat) : (i < n)%nat -> bi n i = i.
Proof.
  intros Hi. unfold bi. destruct (Nat.eqb_spec n 1); [lia | reflexivity].
Qed.

Lemma bi_1 (i : nat) : bi 1 i = 0%nat.
Proof. reflexivity. Qed.

Lemma list_eqb_refl (l : list nat) : list_eqb l l = true.
Proof. unfold list_eqb. destruct (list_eq_dec Nat.eq_dec l l); congruence. Qed.

Create Rewrite HintDb tshape.

#[export] Hint Rewrite bdim_refl bdim_1_r bdim_1_l Nat.eqb_refl list_eqb_refl
  : tshape.


Arguments gelu : simpl never.
Arguments eps : simpl never.
Arguments bidx : simpl never.
Arguments cat_data : simpl never.
Arguments rsum : simpl never.

(** Runs the shape checks of a call on tensors whose shapes are known. *)
Ltac shapes := repeat (progress (cbn; autorewrite with tshape)).

(** Reads the entries of the result at an index in range. *)
Ltac in_range :=
  repeat match goal with
         | H : (?i < ?n)%nat |- context [bi ?n ?i] => rewrite (bi_lt n i H)
         end.

Ltac entries := repeat (progress (cbn; unfold bidx; cbn; in_range)).

(** Evaluates a call on literal tensors down to real arithmetic. *)
Ltac evaluate :=
  cbv -[Rplus Rmult Rdiv Rinv Rminus Ropp IZR INR gelu eps];
  cbn [INR]; rewrite ?gelu_0.

(** ** Concatenation of unit slices *)

Lemma cat_data_units (ts : list tensor) (pre : list nat) (i : nat) (d : tensor) :
  Forall (fun t => last (shape t) 0%nat = 1%nat) ts ->
  (i < length ts)%nat ->
  cat_data ts pre i = data (nth i ts d) (pre ++ [0%nat]).
Proof.
  intros Hts. revert i.
  induction Hts as [| t ts Ht _ IH]; intros i Hi; [simpl in Hi; lia |].
  unfold cat_data; fold cat_data. rewrite Ht.
  destruct i as [| i]; [reflexivity |].
  cbn [Nat.ltb Nat.leb nth]. rewrite Nat.sub_succ, Nat.sub_0_r.
  apply IH. simpl in Hi. lia.
Qed.

Lemma list_sum_units (ts : list tensor) (s : list nat) :
  Forall (fun t => shape t = s ++ [1%nat]) ts ->
  list_sum (map (fun t => last (shape t) 0%nat) ts) = length ts.
Proof.
  induction 1 as [| t l Ht _ IH]; [reflexivity |].
  change (list_sum (map (fun t => last (shape t) 0%nat) (t :: l)))
    with (last (shape t) 0 + list_sum (map (fun t => last (shape t) 0) l))%nat.
  rewrite IH, Ht, last_last. reflexivity.
Qed.

Lemma cat_last_units (ts : list tensor) (s : list nat) :
  ts <> [] ->
  Forall (fun t => shape t = s ++ [1%nat]) ts ->
  cat_last ts
  = Ok (mkT (s ++ [length ts])
            (fun idx => cat_data ts (removelast idx) (last idx 0%nat))).
Proof.
  intros Hne Hts. destruct ts as [| t0 ts']; [contradiction |].
  unfold cat_last.
  assert (H0 : shape t0 = s ++ [1%nat]) by (inversion Hts; assumption).
  assert (Hall : forallb
            (fun t => (0 <? dim t)%nat
                      && list_eqb (removelast (shape t)) (removelast (shape t0)))
            (t0 :: ts') = true).
  { apply forallb_forall. intros t Hin.
    rewrite Forall_forall in Hts. specialize (Hts t Hin).
    unfold dim. rewrite Hts, H0, length_app, removelast_last, list_eqb_refl.
    cbn [length]. rewrite Nat.add_1_r. reflexivity. }
  rewrite Hall, H0, removelast_last.
  rewrite (list_sum_units _ s Hts). reflexivity.
Qed.

(** ** The expansions, entry by entry *)

Section Expansion.

Variables (x coeff : tensor) (B T D : nat).
Hypothesis Hx : shape x = [B; T; D].

(** Each closed form is the contraction of the powers 1..k. *)
Lemma po2_ok :
  shape coeff = [D; 2%nat] ->
  exists h, po2 x coeff = Ok h /\ shape h = [B; T; D]
    /\ forall b t d, (b < B)%nat -> (t < T)%nat -> (d < D)%nat ->
       data h [b; t; d] = data (expansion_spec x coeff 2) [b; t; d].
Proof.
  revert Hx. destruct x as [sx dx], coeff as [sc dc]; cbn [shape]; intros -> ->.
  unfold po2, tmul, binop, broadcast_shapes, cat_last, sum_last.
  shapes.
  eexists. split; [reflexivity |]. split; [reflexivity |].
  intros b t d Hb Ht Hd. entries.
  unfold rsum, cat_data. entries. ring.
Qed.

Lemma po3_ok :
  shape coeff = [D; 3%nat] ->
  exists h, po3 x coeff = Ok h /\ shape h = [B; T; D]
    /\ forall b t d, (b < B)%nat -> (t < T)%nat -> (d < D)%nat ->
       data h [b; t; d] = data (expansion_spec x coeff 3) [b; t; d].
Proof.
  revert Hx. destruct x as [sx dx], coeff as [sc dc]; cbn [shape]; intros -> ->.
  unfold po3, tmul, binop, broadcast_shapes, cat_last, sum_last.
  shapes.
  eexists. split; [reflexivity |]. split; [reflexivity |].
  intros b t d Hb Ht Hd. entries.
  unfold rsum, cat_data. entries. ring.
Qed.

Lemma po4_ok :
  shape coeff = [D; 4%nat] ->
  exists h, po4 x coeff = Ok h /\ shape h = [B; T; D]
    /\ forall b t d, (b < B)%nat -> (t < T)%nat -> (d < D)%nat ->
       data h [b; t; d] = data (expansion_spec x coeff 4) [b; t; d].
Proof.
  revert Hx. destruct x as [sx dx], coeff as [sc dc]; cbn [shape]; intros -> ->.
  unfold po4, tmul, binop, broadcast_shapes, cat_last, sum_last.
  shapes.
  eexists. split; [reflexivity |]. split; [reflexivity |].
  intros b t d Hb Ht Hd. entries.
  unfold rsum, cat_data. entries. ring.
Qed.

(** The loop contracts the powers 0..k-1. *)
Lemma generic_expansion_ok (k : Z) :
  (0 < k)%Z ->
  shape coeff = [D; Z.to_nat k] ->
  exists h, generic_expansion x coeff k = Ok h /\ shape h = [B; T; D]
    /\ forall b t d, (b < B)%nat -> (t < T)%nat -> (d < D)%nat ->
       data h [b; t; d]
       = rsum (Z.to_nat k)
              (fun i => gelu (data x [b; t; d]) ^ i * data coeff [d; i]).
Proof.
  intros Hk. revert Hx.
  destruct x as [sx dx], coeff as [sc dc]; cbn [shape]; intros -> Hc.
  unfold generic_expansion, range.
  assert (HK : (0 < Z.to_nat k)%nat) by lia.
  revert Hc HK. generalize (Z.to_nat k) as K. intros K -> HK.
  set (h := unsqueeze_last (tmap gelu (mkT [B; T; D] dx))).
  rewrite (cat_last_units (map (fun i => tpow h i) (seq 0 K)) [B; T; D]).
  2: { destruct K; [lia | discriminate]. }
  2: { apply Forall_forall. intros t Hin. apply in_map_iff in Hin.
       destruct Hin as [i [<- _]]. reflexivity. }
  rewrite length_map, length_seq.
  unfold tmul, binop, broadcast_shapes, sum_last. shapes.
  eexists. split; [reflexivity |]. split; [reflexivity |].
  intros b t d Hb Ht Hd. cbn.
  apply rsum_ext. intros i Hi. unfold bidx. cbn.
  rewrite !bi_lt by assumption.
  rewrite (cat_data_units _ _ _ (tpow h 0)).
  - rewrite (map_nth (fun i => tpow h i) (seq 0 K) 0%nat i).
    rewrite seq_nth by assumption. reflexivity.
  - apply Forall_forall. intros u Hin. apply in_map_iff in Hin.
    destruct Hin as [j [<- _]]. reflexivity.
  - rewrite length_map, length_seq. assumption.
Qed.

End Expansion.

(** ** The reductions, entry by entry *)

Section Reduction.

Variables (h : tensor) (B T D : nat).
Hypothesis Hh : shape h = [B; T; D].

Lemma mean_keep_ok :
  exists r, mean_keep 1 h = Ok r /\ shape r = [B; 1%nat; D]
    /\ forall b d, (b < B)%nat -> (d < D)%nat ->
       data r [b; 0%nat; d] = rsum T (fun n => data h [b; n; d]) / INR T.
Proof.
  revert Hh. destruct h as [sh dh]; cbn [shape]; intros ->.
  unfold mean_keep. shapes.
  eexists. split; [reflexivity |]. split; [reflexivity |].
  intros b d Hb Hd. reflexivity.
Qed.

Lemma mask_mixer_ok (mask : tensor) :
  shape mask = [B; T] ->
  exists r, mask_mixer h mask = Ok r /\ shape r = [B; 1%nat; D]
    /\ forall b d, (b < B)%nat -> (d < D)%nat ->
       data r [b; 0%nat; d]
       = rsum T (fun n => data h [b; n; d] * data mask [b; n])
         / (eps + rsum T (fun n => data mask [b; n])).
Proof.
  revert Hh. destruct h as [sh dh], mask as [sm dm]; cbn [shape]; intros -> ->.
  unfold mask_mixer, tmul, tdiv, binop, broadcast_shapes, sum_keep.
  shapes.
  eexists. split; [reflexivity |]. split; [reflexivity |].
  intros b d Hb Hd. entries.
  f_equal.
  apply rsum_ext. intros n Hn. entries. reflexivity.
Qed.

Lemma full_mask_mixer_ok (mask : tensor) (M : nat) :
  shape mask = [B; M; T] ->
  exists r, full_mask_mixer h mask = Ok r /\ shape r = [B; M; D]
    /\ forall b m d, (b < B)%nat -> (m < M)%nat -> (d < D)%nat ->
       data r [b; m; d]
       = rsum T (fun n => data h [b; n; d] * data mask [b; m; n])
         / (eps + rsum T (fun n => data mask [b; m; n])).
Proof.
  revert Hh. destruct h as [sh dh], mask as [sm dm]; cbn [shape]; intros -> ->.
  unfold full_mask_mixer, einsum_bnd_bmn_bmd, tdiv, binop, broadcast_shapes,
    sum_keep.
  shapes.
  eexists. split; [reflexivity |]. split; [reflexivity |].
  intros b m d Hb Hm Hd. entries.
  f_equal.
  apply rsum_ext. intros n Hn. entries. reflexivity.
Qed.

End Reduction.

(** [expand] repeats a single row along the sequence axis, keeps a tensor
    that already has the target's shape, and refuses any other length. *)
Lemma expand_row (r : tensor) (B T D : nat) :
  shape r = [B; 1%nat; D] ->
  exists e, expand r [B; T; D] = Ok e /\ shape e = [B; T; D]
    /\ forall b t d, (b < B)%nat -> (t < T)%nat -> (d < D)%nat ->
       data e [b; t; d] = data r [b; 0%nat; d].
Proof.
  destruct r as [sr dr]; cbn [shape]; intros ->.
  unfold expand. shapes. rewrite ?orb_true_r. cbn.
  eexists. split; [reflexivity |]. split; [reflexivity |].
  intros b t d Hb Ht Hd. entries. reflexivity.
Qed.

Lemma expand_same (r : tensor) (B T D : nat) :
  shape r = [B; T; D] ->
  exists e, expand r [B; T; D] = Ok e /\ shape e = [B; T; D]
    /\ forall b t d, (b < B)%nat -> (t < T)%nat -> (d < D)%nat ->
       data e [b; t; d] = data r [b; t; d].
Proof.
  destruct r as [sr dr]; cbn [shape]; intros ->.
  unfold expand. shapes.
  eexists. split; [reflexivity |]. split; [reflexivity |].
  intros b t d Hb Ht Hd. entries. reflexivity.
Qed.

Lemma expand_mismatch (r : tensor) (B M T D : nat) :
  shape r = [B; M; D] -> M <> T -> M <> 1%nat ->
  expand r [B; T; D] = Err RuntimeError.
Proof.
  destruct r as [sr dr]; cbn [shape]; intros -> HMT HM1.
  unfold expand. shapes.
  destruct (Nat.eqb_spec M T); [contradiction |].
  destruct (Nat.eqb_spec M 1); [contradiction |].
  reflexivity.
Qed.

(** ** Aggregation *)

Lemma bind_ok {A C : Type} (r : result A) (f : A -> result C) (v : C) :
  bind r f = Ok v -> exists a, r = Ok a /\ f a = Ok v.
Proof.
  destruct r as [a | e]; cbn; [| discriminate].
  intros H. exists a. split; [reflexivity | exact H].
Qed.

Lemma expand_shape (t e : tensor) (s : list nat) :
  expand t s = Ok e -> shape e = s.
Proof.
  unfold expand. destruct (expandable_rev _ _); [| discriminate].
  intros [= <-]. reflexivity.
Qed.

(** Whatever the mask, a successful aggregation has the shape of its
    input. *)
Lemma polynomial_aggregation_shape (x coeff : tensor) (k : Z)
  (mask : option tensor) (r : tensor) :
  polynomial_aggregation_ x coeff k mask = Ok r -> shape r = shape x.
Proof.
  unfold polynomial_aggregation_. intros H.
  apply bind_ok in H. destruct H as [h [_ H]].
  apply bind_ok in H. destruct H as [h' [_ H]].
  exact (expand_shape _ _ _ H).
Qed.

Lemma expansion_shape (x coeff : tensor) (B T D : nat) (k : Z) :
  shape x = [B; T; D] -> shape coeff = [D; Z.to_nat k] -> (0 < k)%Z ->
  exists h, expansion x coeff k = Ok h /\ shape h = [B; T; D].
Proof.
  intros Hx Hc Hk. unfold expansion.
  destruct (Z.eqb_spec k 2) as [-> | _].
  { destruct (po2_ok x coeff B T D Hx Hc) as [h [H1 [H2 _]]]. eauto. }
  destruct (Z.eqb_spec k 3) as [-> | _].
  { destruct (po3_ok x coeff B T D Hx Hc) as [h [H1 [H2 _]]]. eauto. }
  destruct (Z.eqb_spec k 4) as [-> | _].
  { destruct (po4_ok x coeff B T D Hx Hc) as [h [H1 [H2 _]]]. eauto. }
  destruct (generic_expansion_ok x coeff B T D Hx k Hk Hc) as [h [H1 [H2 _]]].
  eauto.
Qed.

Section Aggregation.

Variables (x coeff h : tensor) (k : Z) (B T D : nat).
Hypothesis Hx : shape x = [B; T; D].
Hypothesis Hexp : expansion x coeff k = Ok h.
Hypothesis Hh : shape h = [B; T; D].

(** Without a mask every position receives the mean over the sequence. *)
Lemma aggregation_none :
  exists r, polynomial_aggregation_ x coeff k None = Ok r
    /\ shape r = [B; T; D]
    /\ forall b t d, (b < B)%nat -> (t < T)%nat -> (d < D)%nat ->
       data r [b; t; d] = rsum T (fun n => data h [b; n; d]) / INR T.
Proof.
  unfold polynomial_aggregation_. rewrite Hexp, Hx. cbn [bind reduce].
  destruct (mean_keep_ok h B T D Hh) as [r [-> [Hr Hv]]]. cbn [bind].
  destruct (expand_row r B T D Hr) as [e [-> [He Hd]]].
  exists e. split; [reflexivity |]. split; [exact He |].
  intros b t d Hb Ht Hd'. rewrite Hd, Hv by assumption. reflexivity.
Qed.

(** With a mask of shape (B, T) every position receives the weighted mean
    stabilised by [eps]. *)
Lemma aggregation_mask2 (mask : tensor) :
  shape mask = [B; T] ->
  exists r, polynomial_aggregation_ x coeff k (Some mask) = Ok r
    /\ shape r = [B; T; D]
    /\ forall b t d, (b < B)%nat -> (t < T)%nat -> (d < D)%nat ->
       data r [b; t; d]
       = rsum T (fun n => data h [b; n; d] * data mask [b; n])
         / (eps + rsum T (fun n => data mask [b; n])).
Proof.
  intros Hm.
  unfold polynomial_aggregation_. rewrite Hexp, Hx. cbn [bind reduce].
  unfold dim. rewrite Hm. cbn [length Nat.eqb].
  destruct (mask_mixer_ok h B T D Hh mask Hm) as [r [-> [Hr Hv]]]. cbn [bind].
  destruct (expand_row r B T D Hr) as [e [-> [He Hd]]].
  exists e. split; [reflexivity |]. split; [exact He |].
  intros b t d Hb Ht Hd'. rewrite Hd, Hv by assumption. reflexivity.
Qed.

(** With a mask of shape (B, T, T) position m receives the mean weighted by
    row m of the mask. *)
Lemma aggregation_mask3_square (mask : tensor) :
  shape mask = [B; T; T] ->
  exists r, polynomial_aggregation_ x coeff k (Some mask) = Ok r
    /\ shape r = [B; T; D]
    /\ forall b m d, (b < B)%nat -> (m < T)%nat -> (d < D)%nat ->
       data r [b; m; d]
       = rsum T (fun n => data h [b; n; d] * data mask [b; m; n])
         / (eps + rsum T (fun n => data mask [b; m; n])).
Proof.
  intros Hm.
  unfold polynomial_aggregation_. rewrite Hexp, Hx. cbn [bind reduce].
  unfold dim. rewrite Hm. cbn [length Nat.eqb].
  destruct (full_mask_mixer_ok h B T D Hh mask T Hm) as [r [-> [Hr Hv]]].
  cbn [bind].
  destruct (expand_same r B T D Hr) as [e [-> [He Hd]]].
  exists e. split; [reflexivity |]. split; [exact He |].
  intros b m d Hb Ht Hd'. rewrite Hd, Hv by assumption. reflexivity.
Qed.

(** With a mask of shape (B, M, T) the mixer succeeds with M rows, and the
    final [expand] to the input's shape refuses them unless M is T or 1. *)
Lemma aggregation_mask3_mismatch (mask : tensor) (M : nat) :
  shape mask = [B; M; T] -> M <> T -> M <> 1%nat ->
  polynomial_aggregation_ x coeff k (Some mask) = Err RuntimeError.
Proof.
  intros Hm HMT HM1.
  unfold polynomial_aggregation_. rewrite Hexp, Hx. cbn [bind reduce].
  unfold dim. rewrite Hm. cbn [length Nat.eqb].
  destruct (full_mask_mixer_ok h B T D Hh mask M Hm) as [r [-> [Hr _]]].
  cbn [bind]. exact (expand_mismatch r B M T D Hr HMT HM1).
Qed.

End Aggregation.

(** ** Closed forms against the loop *)







(** C3. For k = 5 the aggregation runs the generic branch; at x = 0 with
    coefficients (1, 0, 0, 0, 0) it returns 1, the term gelu(0)^0, where the
    powers 1..5 of gelu(0) = 0 contribute 0. *)
Theorem generic_branch_starts_at_power_zero :
  exists r,
    polynomial_aggregation_ x_zero coeff_first5 5 None = Ok r
    /\ data r [0; 0; 0]%nat = 1
    /\ data (expansion_spec x_zero coeff_first5 5) [0; 0; 0]%nat = 0.
Proof.
  eexists. split; [reflexivity |].
  split; evaluate; lra.
Qed.

(** ** Mask rank *)

(** C6. A mask whose rank is neither 2 nor 3 never yields an aggregate, and
    once the expansion of the input has gone through the call raises the
    ValueError that carries the rank. *)
Theorem unsupported_mask_rank (x coeff mask : tensor) (k : Z) (h : tensor) :
  dim mask <> 2%nat -> dim mask <> 3%nat ->
  expansion x coeff k = Ok h ->
  polynomial_aggregation_ x coeff k (Some mask)
  = Err (ValueError (unsupported_mask_dimension (dim mask)))
  /\ forall x' coeff' k' r,
       polynomial_aggregation_ x' coeff' k' (Some mask) <> Ok r.
Proof.
  intros H2 H3 Hexp.
  assert (Hred : forall h', reduce h' (Some mask)
                 = Err (ValueError (unsupported_mask_dimension (dim mask)))).
  { intros h'. unfold reduce.
    destruct (Nat.eqb_spec (dim mask) 2); [contradiction |].
    destruct (Nat.eqb_spec (dim mask) 3); [contradiction |].
    reflexivity. }
  split.
  - unfold polynomial_aggregation_. rewrite Hexp. cbn [bind].
    rewrite Hred. reflexivity.
  - intros x' coeff' k' r H. unfold polynomial_aggregation_ in H.
    apply bind_ok in H. destruct H as [h' [_ H]].
    rewrite Hred in H. discriminate.
Qed.

Lemma unsupported_mask_rank_witness :
  polynomial_aggregation_ x_one coeff_first2 2 (Some (ones [2%nat]))
  = Err (ValueError "Unsupported mask dimension: 1. Expected 2, 3, or None.")
  /\ polynomial_aggregation_ x_one coeff_first2 2
       (Some (ones [1; 1; 1; 1]%nat))
     = Err (ValueError "Unsupported mask dimension: 4. Expected 2, 3, or None.").
Proof.
  split.
  - refine (proj1 (unsupported_mask_rank x_one coeff_first2 (ones [2%nat]) 2 _
                     _ _ eq_refl)); cbv; discriminate.
  - refine (proj1 (unsupported_mask_rank x_one coeff_first2
                     (ones [1; 1; 1; 1]%nat) 2 _ _ _ eq_refl)); cbv; discriminate.
Defined.

(** ** The query *)

(** C9. Once a context is supplied the query is never read: two calls that
    differ in the query alone return the same value, for [forward] and for
    the output and state of [state_forward]. *)
Theorem query_noninterference (m : ComPoM) (xq1 xq2 xc : tensor)
  (mask : option tensor) (st : option state) :
  forward m xq1 (Some xc) mask = forward m xq2 (Some xc) mask
  /\ state_forward m xq1 (Some xc) st = state_forward m xq2 (Some xc) st.
Proof. split; reflexivity. Qed.

(** ** All-zero mask rows *)



(** ** Pairwise masks *)

(** C4. For a context of 2 positions and a mask of shape (1, 3, 2), that is
    3 queries, [full_mask_mixer] produces the (1, 3, 1) aggregate and the
    aggregation then raises: its final [expand] to the context's shape
    refuses the 3 rows. *)
Theorem pairwise_mask_query_length_raises :
  (exists h r, expansion chunk2 coeff_first2 2 = Ok h
               /\ full_mask_mixer h (ones [1; 3; 2]%nat) = Ok r
               /\ shape r = [1; 3; 1]%nat)
  /\ polynomial_aggregation_ chunk2 coeff_first2 2 (Some (ones [1; 3; 2]%nat))
     = Err RuntimeError.
Proof.
  destruct (po2_ok chunk2 coeff_first2 1 2 1 eq_refl eq_refl) as [h [Hh [Hs _]]].
  assert (Hexp : expansion chunk2 coeff_first2 2 = Ok h) by exact Hh.
  split.
  - destruct (full_mask_mixer_ok h 1 2 1 Hs (ones [1; 3; 2]%nat) 3 eq_refl)
      as [r [Hr [Hrs _]]].
    exists h, r. auto.
  - apply (aggregation_mask3_mismatch chunk2 coeff_first2 h 2 1 2 1
             eq_refl Hexp Hs (ones [1; 3; 2]%nat) 3 eq_refl); lia.
Qed.

(** ** No mask against a mask of ones *)

(** The two formulas in exact arithmetic: without mask the aggregate is the
    mean S/T, under a (B, T) mask of ones it is S/(1e-7 + T).  Both calls
    succeed with the input's shape and the two quotients differ by the
    factor T/(1e-7 + T).  A gap of that size is at the resolution of the
    machine numbers the module computes with, where 1e-7 + T may round to
    T: whether the two returned tensors coincide is decided by that
    rounding, which this development does not model. *)
Lemma no_mask_vs_ones_mask (x coeff : tensor) (k : Z) (B T D : nat) :
  shape x = [B; T; D] -> shape coeff = [D; Z.to_nat k] -> (0 < k)%Z ->
  exists a m,
    polynomial_aggregation_ x coeff k None = Ok a
    /\ polynomial_aggregation_ x coeff k (Some (ones [B; T])) = Ok m
    /\ shape a = [B; T; D] /\ shape m = [B; T; D]
    /\ forall b t d, (b < B)%nat -> (t < T)%nat -> (d < D)%nat ->
       data m [b; t; d] = data a [b; t; d] * (INR T / (eps + INR T))
       /\ Rabs (data m [b; t; d] - data a [b; t; d])
          <= eps * Rabs (data a [b; t; d]).
Proof.
  intros Hx Hc Hk.
  destruct (expansion_shape x coeff B T D k Hx Hc Hk) as [h [Hexp Hh]].
  destruct (aggregation_none x coeff h k B T D Hx Hexp Hh) as [a [Ha [Hsa Hva]]].
  destruct (aggregation_mask2 x coeff h k B T D Hx Hexp Hh (ones [B; T]) eq_refl)
    as [m [Hm [Hsm Hvm]]].
  exists a, m. repeat (split; [assumption |]).
  intros b t d Hb Ht Hd.
  rewrite (Hva b t d Hb Ht Hd), (Hvm b t d Hb Ht Hd).
  cbn [ones full data].
  rewrite rsum_const, Rmult_1_r.
  rewrite (rsum_ext T (fun n => data h [b; n; d] * 1) (fun n => data h [b; n; d]))
    by (intros; apply Rmult_1_r).
  set (S := rsum T (fun n => data h [b; n; d])).
  pose proof eps_pos as He.
  assert (HT : 1 <= INR T).
  { change 1 with (INR 1). apply le_INR. lia. }
  assert (Heq : S / (eps + INR T) = S / INR T * (INR T / (eps + INR T))).
  { field. split; lra. }
  split; [exact Heq |].
  rewrite Heq.
  replace (S / INR T * (INR T / (eps + INR T)) - S / INR T)
    with (- (S / INR T * (eps / (eps + INR T)))) by (field; lra).
  rewrite Rabs_Ropp, Rabs_mult, Rmult_comm.
  apply Rmult_le_compat_r; [apply Rabs_pos |].
  assert (Hq : 0 < eps / (eps + INR T)) by (apply Rdiv_lt_0_compat; lra).
  rewrite Rabs_pos_eq by lra.
  apply Rle_trans with (eps / 1); [| lra].
  unfold Rdiv. apply Rmult_le_compat_l; [lra |].
  apply Rinv_le_contravar; lra.
Qed.

(** ** Projections *)

Lemma linear_ok (l : Linear) (x : tensor) (B T : nat) :
  shape x = [B; T; in_features l] ->
  exists y, linear l x = Ok y /\ shape y = [B; T; out_features l]
    /\ forall b t o, data y [b; t; o] = projected l x b t o.
Proof.
  destruct x as [sx dx]; cbn [shape]; intros ->.
  unfold linear. shapes.
  eexists. split; [reflexivity |]. split; reflexivity.
Qed.

(** Each entry of the expansion depends on the same entry of the input
    alone. *)
Lemma expansion_entries (x coeff : tensor) (B T D : nat) (k : Z) :
  shape x = [B; T; D] -> shape coeff = [D; Z.to_nat k] -> (0 < k)%Z ->
  exists h, expansion x coeff k = Ok h /\ shape h = [B; T; D]
    /\ forall b t d, (b < B)%nat -> (t < T)%nat -> (d < D)%nat ->
       data h [b; t; d] = poly coeff k d (data x [b; t; d]).
Proof.
  intros Hx Hc Hk. unfold expansion, poly, first_power.
  destruct (Z.eqb_spec k 2) as [-> | _].
  { destruct (po2_ok x coeff B T D Hx Hc) as [h [H1 [H2 H3]]].
    exists h. split; [exact H1 |]. split; [exact H2 |].
    intros b t d Hb Ht Hd. rewrite (H3 b t d Hb Ht Hd). reflexivity. }
  destruct (Z.eqb_spec k 3) as [-> | _].
  { destruct (po3_ok x coeff B T D Hx Hc) as [h [H1 [H2 H3]]].
    exists h. split; [exact H1 |]. split; [exact H2 |].
    intros b t d Hb Ht Hd. rewrite (H3 b t d Hb Ht Hd). reflexivity. }
  destruct (Z.eqb_spec k 4) as [-> | _].
  { destruct (po4_ok x coeff B T D Hx Hc) as [h [H1 [H2 H3]]].
    exists h. split; [exact H1 |]. split; [exact H2 |].
    intros b t d Hb Ht Hd. rewrite (H3 b t d Hb Ht Hd). reflexivity. }
  cbn [orb].
  destruct (generic_expansion_ok x coeff B T D Hx k Hk Hc) as [h [H1 [H2 H3]]].
  exists h. split; [exact H1 |]. split; [exact H2 |].
  intros b t d Hb Ht Hd. rewrite (H3 b t d Hb Ht Hd). reflexivity.
Qed.

Lemma linear_shape (l : Linear) (x y : tensor) :
  linear l x = Ok y -> shape y = removelast (shape x) ++ [out_features l].
Proof.
  unfold linear. destruct (rev (shape x)) as [| n s]; [discriminate |].
  destruct (n =? in_features l)%nat; [| discriminate].
  intros [= <-]. reflexivity.
Qed.

Lemma bi_bdim_l (a b c t : nat) :
  bdim a b = Some c -> (t < c)%nat -> (bi a t < a)%nat.
Proof.
  unfold bdim, bi. intros H Ht.
  destruct (Nat.eqb_spec a 1) as [-> | Ha]; [lia |].
  destruct (Nat.eqb_spec a b) as [-> | Hab]; [injection H as <-; exact Ht |].
  destruct (Nat.eqb_spec b 1); [injection H as <-; exact Ht | discriminate].
Qed.

Lemma bi_bdim_r (a b c t : nat) :
  bdim a b = Some c -> (t < c)%nat -> (bi b t < b)%nat.
Proof.
  unfold bdim, bi. intros H Ht.
  destruct (Nat.eqb_spec b 1) as [-> | Hb]; [lia |].
  destruct (Nat.eqb_spec a b) as [-> | Hab]; [injection H as <-; exact Ht |].
  destruct (Nat.eqb_spec a 1); [injection H as <-; exact Ht | discriminate].
Qed.

(** ** Streaming state *)

Section StateForward.

Variables (m : ComPoM) (B T : nat).
Hypothesis Hm : constructed m.
Hypothesis Hk : (0 < order m)%Z.

Let D := dim_ m.
Let D' := (order_expand m * dim_ m)%nat.

(** The chunk aggregate that [state_forward] computes before merging. *)
Lemma chunk_aggregate_ok (xc : tensor) :
  shape xc = [B; T; D] ->
  exists y h_current,
    linear (po_proj m) xc = Ok y
    /\ polynomial_aggregation_ y (po_coeff m) (order m) None = Ok h_current
    /\ shape h_current = [B; T; D']
    /\ forall b t d, (b < B)%nat -> (t < T)%nat -> (d < D')%nat ->
       data h_current [b; t; d] = chunk_mean m xc b d.
Proof.
  intros Hxc. destruct Hm as [Hin [Hout [Hc _]]].
  destruct (linear_ok (po_proj m) xc B T) as [y [Hy [Hsy Hvy]]].
  { rewrite Hin. exact Hxc. }
  rewrite Hout in Hsy. rewrite Nat.mul_comm in Hc.
  destruct (expansion_entries y (po_coeff m) B T D' (order m) Hsy Hc Hk)
    as [h [Hexp [Hh Hvh]]].
  destruct (aggregation_none y (po_coeff m) h (order m) B T D' Hsy Hexp Hh)
    as [r [Hr [Hsr Hvr]]].
  exists y, r. repeat (split; [assumption |]).
  intros b t d Hb Ht Hd. rewrite (Hvr b t d Hb Ht Hd).
  unfold chunk_mean, seq_len. rewrite Hxc. cbn [nth].
  f_equal. apply rsum_ext. intros n Hn.
  rewrite (Hvh b n d Hb Hn Hd), Hvy. reflexivity.
Qed.

Lemma state_forward_first (xq xc : tensor) :
  shape xc = [B; T; D] ->
  exists out st,
    state_forward m xq (Some xc) None = Ok (out, st)
    /\ shape out = [B; T; D]
    /\ shape (st_h st) = [B; T; D']
    /\ st_n st = T
    /\ forall b t d, (b < B)%nat -> (t < T)%nat -> (d < D')%nat ->
       data (st_h st) [b; t; d] = chunk_mean m xc b d.
Proof.
  intros Hxc.
  destruct (chunk_aggregate_ok xc Hxc) as [y [hc [Hy [Hagg [Hs Hv]]]]].
  destruct Hm as [_ [_ [_ [Hin Hout]]]].
  destruct (linear_ok (ag_proj m) hc B T) as [out [Ho [Hso _]]].
  { rewrite Hin. exact Hs. }
  unfold state_forward. rewrite Hy. cbn [bind]. rewrite Hagg. cbn [bind].
  unfold shape_at. rewrite Hs. cbn [nth_error bind]. rewrite Ho. cbn [bind].
  exists out, (mkState hc (0 + T)). split; [reflexivity |].
  rewrite Hout in Hso. auto.
Qed.

Lemma state_forward_next (xq xc : tensor) (s : state) (Tp T' : nat) :
  shape xc = [B; T; D] ->
  shape (st_h s) = [B; Tp; D'] ->
  bdim Tp T = Some T' ->
  exists out st,
    state_forward m xq (Some xc) (Some s) = Ok (out, st)
    /\ shape out = [B; T'; D]
    /\ shape (st_h st) = [B; T'; D']
    /\ st_n st = (st_n s + T)%nat
    /\ forall b t d, (b < B)%nat -> (t < T')%nat -> (d < D')%nat ->
       data (st_h st) [b; t; d]
       = (INR (st_n s) * data (st_h s) [b; bi Tp t; d]
          + INR T * chunk_mean m xc b d) / INR (st_n s + T).
Proof.
  intros Hxc Hsp Hb.
  destruct (chunk_aggregate_ok xc Hxc) as [y [hc [Hy [Hagg [Hs Hv]]]]].
  destruct Hm as [_ [_ [_ [Hin Hout]]]].
  unfold state_forward. rewrite Hy. cbn [bind]. rewrite Hagg. cbn [bind].
  unfold shape_at. rewrite Hs. cbn [nth_error bind].
  unfold tadd, binop, broadcast_shapes. cbn [smul tmap shape].
  rewrite Hsp, Hs. cbn [rev app bshape_rev]. rewrite Hb, !bdim_refl.
  cbn [option_map rev app bind].
  match goal with
  | |- context [linear (ag_proj m) ?t] =>
      destruct (linear_ok (ag_proj m) t B T') as [out [Ho [Hso _]]];
      [rewrite Hin; reflexivity | rewrite Ho]
  end.
  cbn [bind]. eexists. eexists. split; [reflexivity |].
  rewrite Hout in Hso. cbn [st_h st_n].
  repeat (split; [auto; fail |]).
  intros b t d Hb' Ht Hd. entries.
  rewrite (Hv b (bi T t) d Hb' (bi_bdim_r Tp T T' t Hb Ht) Hd).
  reflexivity.
Qed.

Lemma state_forward_mismatch (xq xc : tensor) (s : state) (Tp : nat) :
  shape xc = [B; T; D] ->
  shape (st_h s) = [B; Tp; D'] ->
  Tp <> T -> Tp <> 1%nat -> T <> 1%nat ->
  state_forward m xq (Some xc) (Some s) = Err RuntimeError.
Proof.
  intros Hxc Hsp H1 H2 H3.
  destruct (chunk_aggregate_ok xc Hxc) as [y [hc [Hy [Hagg [Hs _]]]]].
  unfold state_forward. rewrite Hy. cbn [bind]. rewrite Hagg. cbn [bind].
  unfold shape_at. rewrite Hs. cbn [nth_error bind].
  unfold tadd, binop, broadcast_shapes. cbn [smul tmap shape].
  rewrite Hsp, Hs. cbn [rev app bshape_rev].
  rewrite (bdim_none Tp T H1 H2 H3), !bdim_refl. reflexivity.
Qed.

End StateForward.

(** ** Streaming against one-shot aggregation *)

Lemma projected_cat_left (l : Linear) (x1 x2 : tensor) (b n o : nat) :
  (n < seq_len x1)%nat ->
  projected l (cat_seq x1 x2) b n o = projected l x1 b n o.
Proof.
  intros Hn. unfold projected. f_equal. apply rsum_ext. intros i _.
  cbn [cat_seq data]. apply Nat.ltb_lt in Hn. rewrite Hn. reflexivity.
Qed.

Lemma projected_cat_right (l : Linear) (x1 x2 : tensor) (b n o : nat) :
  projected l (cat_seq x1 x2) b (seq_len x1 + n) o = projected l x2 b n o.
Proof.
  unfold projected. f_equal. apply rsum_ext. intros i _.
  cbn [cat_seq data].
  destruct (Nat.ltb_spec (seq_len x1 + n) (seq_len x1)) as [H | _]; [lia |].
  replace (seq_len x1 + n - seq_len x1)%nat with n by lia. reflexivity.
Qed.

Lemma chunk_mean_cat (m : ComPoM) (x1 x2 : tensor) (B T1 T2 D : nat) (b d : nat) :
  shape x1 = [B; T1; D] -> shape x2 = [B; T2; D] ->
  (0 < T1)%nat -> (0 < T2)%nat ->
  chunk_mean m (cat_seq x1 x2) b d
  = (INR T1 * chunk_mean m x1 b d + INR T2 * chunk_mean m x2 b d)
    / INR (T1 + T2).
Proof.
  intros H1 H2 HT1 HT2.
  assert (L1 : seq_len x1 = T1) by (unfold seq_len; rewrite H1; reflexivity).
  assert (L2 : seq_len x2 = T2) by (unfold seq_len; rewrite H2; reflexivity).
  assert (L : seq_len (cat_seq x1 x2) = (T1 + T2)%nat).
  { unfold seq_len at 1. cbn [cat_seq shape]. rewrite H1, L1, L2. reflexivity. }
  unfold chunk_mean. rewrite L, L1, L2, rsum_app.
  rewrite (rsum_ext T1 _
             (fun n => poly (po_coeff m) (order m) d
                         (projected (po_proj m) x1 b n d))).
  2: { intros n Hn. rewrite projected_cat_left by lia. reflexivity. }
  rewrite (rsum_ext T2 _
             (fun n => poly (po_coeff m) (order m) d
                         (projected (po_proj m) x2 b n d))).
  2: { intros n Hn. rewrite <- L1, projected_cat_right. reflexivity. }
  assert (0 < INR T1) by (apply lt_0_INR; exact HT1).
  assert (0 < INR T2) by (apply lt_0_INR; exact HT2).
  rewrite plus_INR. field. repeat split; lra.
Qed.

(** X16. Where the two calls go through (chunks of equal length, or one of
    them of length 1), every entry of the final aggregate is the mean that
    one-shot aggregation over the concatenated sequence puts at every
    position, and the count is the total length. *)
Lemma streaming_matches_one_shot (m : ComPoM) (x1 x2 : tensor)
  (B T1 T2 T' : nat) :
  constructed m -> (0 < order m)%Z ->
  shape x1 = [B; T1; dim_ m] -> shape x2 = [B; T2; dim_ m] ->
  (0 < T1)%nat -> (0 < T2)%nat -> bdim T1 T2 = Some T' ->
  exists o1 s1 o2 s2 y whole,
    state_forward m x1 None None = Ok (o1, s1)
    /\ state_forward m x2 None (Some s1) = Ok (o2, s2)
    /\ linear (po_proj m) (cat_seq x1 x2) = Ok y
    /\ polynomial_aggregation_ y (po_coeff m) (order m) None = Ok whole
    /\ st_n s2 = (T1 + T2)%nat
    /\ forall b t t' d,
         (b < B)%nat -> (t < T')%nat -> (t' < T1 + T2)%nat ->
         (d < order_expand m * dim_ m)%nat ->
         data (st_h s2) [b; t; d] = data whole [b; t'; d].
Proof.
  intros Hm Hk H1 H2 HT1 HT2 Hb.
  destruct (state_forward_first m B T1 Hm Hk x1 x1 H1)
    as [o1 [s1 [Hc1 [_ [Hs1 [Hn1 Hv1]]]]]].
  destruct (state_forward_next m B T2 Hm Hk x2 x2 s1 T1 T' H2 Hs1 Hb)
    as [o2 [s2 [Hc2 [_ [Hs2 [Hn2 Hv2]]]]]].
  assert (Hcat : shape (cat_seq x1 x2) = [B; (T1 + T2)%nat; dim_ m]).
  { cbn [cat_seq shape]. unfold seq_len. rewrite H1, H2. reflexivity. }
  destruct (chunk_aggregate_ok m B (T1 + T2) Hm Hk (cat_seq x1 x2) Hcat)
    as [y [whole [Hy [Hw [_ Hvw]]]]].
  exists o1, s1, o2, s2, y, whole.
  split; [exact Hc1 |]. split; [exact Hc2 |].
  split; [exact Hy |]. split; [exact Hw |].
  split; [rewrite Hn2, Hn1; reflexivity |].
  intros b t t' d Hb' Ht Ht' Hd.
  rewrite (Hvw b t' d Hb' Ht' Hd), (Hv2 b t d Hb' Ht Hd).
  rewrite (Hv1 b (bi T1 t) d Hb' (bi_bdim_l T1 T2 T' t Hb Ht) Hd).
  rewrite Hn1. symmetry.
  exact (chunk_mean_cat m x1 x2 B T1 T2 (dim_ m) b d H1 H2 HT1 HT2).
Qed.

(** ** Shapes returned by [state_forward] *)

(** C5, as stated, fails: on a chunk of two positions the output and the
    aggregate of the returned state have shape (1, 2, 1), not (1, 1, 1). *)
Lemma state_forward_keeps_chunk_length :
  exists out st,
    state_forward unit_module chunk2 None None = Ok (out, st)
    /\ shape out = [1; 2; 1]%nat
    /\ shape (st_h st) = [1; 2; 1]%nat
    /\ shape out <> [1; 1; 1]%nat
    /\ shape (st_h st) <> [1; 1; 1]%nat.
Proof.
  eexists. eexists. split; [reflexivity |].
  cbn [st_h]. repeat split; try reflexivity; discriminate.
Qed.

(** C5, amended. On a context of shape (B, T, D) a call without prior state,
    or with a prior aggregate of the same shape (B, T, D'), returns an output
    of shape (B, T, D) and an aggregate of shape (B, T, D') with
    D' = expand * D: both keep the chunk's sequence length. *)
Theorem state_forward_shapes (m : ComPoM) (xq xc : tensor) (B T : nat)
  (st : option state) :
  constructed m -> (0 < order m)%Z ->
  shape xc = [B; T; dim_ m] ->
  match st with
  | None => True
  | Some s => shape (st_h s) = [B; T; (order_expand m * dim_ m)%nat]
  end ->
  exists out st',
    state_forward m xq (Some xc) st = Ok (out, st')
    /\ shape out = [B; T; dim_ m]
    /\ shape (st_h st') = [B; T; (order_expand m * dim_ m)%nat].
Proof.
  intros Hm Hk Hxc Hst. destruct st as [s |].
  - destruct (state_forward_next m B T Hm Hk xq xc s T T Hxc Hst (bdim_refl T))
      as [out [st' [H [Ho [Hs _]]]]].
    exists out, st'. auto.
  - destruct (state_forward_first m B T Hm Hk xq xc Hxc)
      as [out [st' [H [Ho [Hs _]]]]].
    exists out, st'. auto.
Qed.

Lemma unit_module_constructed : constructed unit_module.
Proof. repeat split. Qed.

Lemma state_forward_shapes_witness :
  exists out st',
    state_forward unit_module chunk3 (Some chunk2) None = Ok (out, st')
    /\ shape out = [1; 2; 1]%nat
    /\ shape (st_h st') = [1; 2; 1]%nat.
Proof.
  apply (state_forward_shapes unit_module chunk3 chunk2 1 2 None).
  - exact unit_module_constructed.
  - reflexivity.
  - reflexivity.
  - exact I.
Defined.

(** ** The count of the streaming state *)

Lemma state_forward_count (m : ComPoM) (c out : tensor) (st : option state)
  (st' : state) :
  dim c = 3%nat ->
  state_forward m c None st = Ok (out, st') ->
  st_n st' = (count st + seq_len c)%nat.
Proof.
  intros Hc H. unfold state_forward in H.
  apply bind_ok in H. destruct H as [y [Hy H]].
  apply bind_ok in H. destruct H as [hc [Hagg H]].
  apply bind_ok in H. destruct H as [n [Hn H]].
  apply bind_ok in H. destruct H as [[h np] [Hmerge H]].
  apply bind_ok in H. destruct H as [o [_ H]].
  injection H as _ <-. cbn [st_n].
  assert (Hlen : n = seq_len c).
  { apply linear_shape in Hy. apply polynomial_aggregation_shape in Hagg.
    unfold shape_at in Hn. rewrite Hagg, Hy in Hn.
    unfold dim in Hc. unfold seq_len.
    destruct (shape c) as [| a [| b [| d [| ? ?]]]]; try discriminate.
    cbn in Hn. injection Hn as <-. reflexivity. }
  assert (Hnp : np = count st).
  { destruct st as [s |]; cbn [count].
    - apply bind_ok in Hmerge. destruct Hmerge as [num [_ Hmerge]].
      injection Hmerge as _ <-. reflexivity.
    - injection Hmerge as _ <-. reflexivity. }
  rewrite Hlen, Hnp. reflexivity.
Qed.

Lemma stream_count (m : ComPoM) (chunks : list tensor) :
  Forall (fun c => dim c = 3%nat) chunks ->
  forall st0 st, stream m chunks st0 = Ok st ->
  count st = (count st0 + list_sum (map seq_len chunks))%nat.
Proof.
  induction 1 as [| c cs Hc _ IH]; intros st0 st H.
  - cbn in H. injection H as <-. cbn. lia.
  - cbn [stream] in H. apply bind_ok in H.
    destruct H as [[out st1] [H1 H]].
    apply IH in H. rewrite H. cbn [count].
    rewrite (state_forward_count m c out st0 st1 Hc H1).
    cbn [map list_sum fold_right]. change (fold_right Nat.add 0%nat) with list_sum.
    lia.
Qed.

(** C7. When the calls on chunks of lengths n1, ..., nk all succeed, each
    one receiving the state the previous one returned and the first one
    none, the count of the final state is n1 + ... + nk; for a single chunk
    it is that chunk's length. *)
Theorem streaming_count (m : ComPoM) (chunks : list tensor) (st : option state) :
  Forall (fun c => dim c = 3%nat) chunks ->
  stream m chunks None = Ok st ->
  count st = list_sum (map seq_len chunks).
Proof.
  intros Hc H. exact (stream_count m chunks Hc None st H).
Qed.

Lemma streaming_count_witness :
  exists st,
    stream unit_module [chunk2; chunk2; chunk2] None = Ok st
    /\ count st = 6%nat.
Proof.
  eexists. split; [reflexivity |].
  apply (streaming_count unit_module [chunk2; chunk2; chunk2]).
  - repeat constructor.
  - reflexivity.
Defined.

(** ** Chunks of unequal lengths *)

(** C2. After a chunk of two positions, the call on a chunk of three
    positions raises: the sum of the prior aggregate (1, 2, 1) and the new
    one (1, 3, 1) does not broadcast. *)
Theorem streaming_unequal_chunks_raises :
  (exists out st,
     state_forward unit_module chunk2 None None = Ok (out, st)
     /\ state_forward unit_module chunk3 None (Some st) = Err RuntimeError)
  /\ stream unit_module [chunk2; chunk3] None = Err RuntimeError.
Proof.
  split.
  - eexists. eexists. split; reflexivity.
  - reflexivity.
Qed.

(** * Further properties *)

(** ** Orders and coefficient degrees *)

(** X1. For an order k <= 0 the aggregation raises whatever the input, the
    coefficients and the mask: the generic branch concatenates an empty list
    of powers. *)
Theorem nonpositive_order_raises (x coeff : tensor) (k : Z)
  (mask : option tensor) :
  (k <= 0)%Z ->
  polynomial_aggregation_ x coeff k mask = Err RuntimeError.
Proof.
  intros Hk. unfold polynomial_aggregation_, expansion.
  destruct (Z.eqb_spec k 2); [lia |].
  destruct (Z.eqb_spec k 3); [lia |].
  destruct (Z.eqb_spec k 4); [lia |].
  unfold generic_expansion, range.
  replace (Z.to_nat k) with 0%nat by lia. reflexivity.
Qed.

Lemma nonpositive_order_raises_witness :
  polynomial_aggregation_ x_one coeff_first2 0 None = Err RuntimeError.
Proof.
  apply (nonpositive_order_raises x_one coeff_first2 0 None). lia.
Defined.

Lemma expansion_degree_mismatch (x coeff : tensor) (B T D Dc K : nat) (k : Z) :
  shape x = [B; T; D] -> shape coeff = [Dc; K] -> (0 < k)%Z ->
  bdim (Z.to_nat k) K = None ->
  expansion x coeff k = Err RuntimeError.
Proof.
  destruct x as [sx dx], coeff as [sc dc]; cbn [shape]; intros -> -> Hk Hb.
  unfold expansion.
  destruct (Z.eqb_spec k 2) as [-> | _].
  { change (Z.to_nat 2) with 2%nat in Hb.
    unfold po2, tmul, binop, broadcast_shapes, cat_last. shapes.
    rewrite Hb. reflexivity. }
  destruct (Z.eqb_spec k 3) as [-> | _].
  { change (Z.to_nat 3) with 3%nat in Hb.
    unfold po3, tmul, binop, broadcast_shapes, cat_last. shapes.
    rewrite Hb. reflexivity. }
  destruct (Z.eqb_spec k 4) as [-> | _].
  { change (Z.to_nat 4) with 4%nat in Hb.
    unfold po4, tmul, binop, broadcast_shapes, cat_last. shapes.
    rewrite Hb. reflexivity. }
  unfold generic_expansion, range.
  assert (HK : (0 < Z.to_nat k)%nat) by lia.
  revert Hb HK. generalize (Z.to_nat k) as n. intros n Hb HK.
  set (h := unsqueeze_last (tmap gelu (mkT [B; T; D] dx))).
  rewrite (cat_last_units (map (fun i => tpow h i) (seq 0 n)) [B; T; D]).
  2: { destruct n; [lia | discriminate]. }
  2: { apply Forall_forall. intros t Hin. apply in_map_iff in Hin.
       destruct Hin as [i [<- _]]. reflexivity. }
  rewrite length_map, length_seq.
  unfold tmul, binop, broadcast_shapes. cbn [bind shape rev app bshape_rev].
  rewrite Hb. reflexivity.
Qed.

(** X2. When the coefficient tensor has K columns, K differs from the order
    k and neither is 1, the aggregation raises: the k concatenated powers do
    not broadcast against the K columns. *)
Theorem degree_mismatch_raises (x coeff : tensor) (B T D Dc K : nat) (k : Z)
  (mask : option tensor) :
  shape x = [B; T; D] -> shape coeff = [Dc; K] -> (0 < k)%Z ->
  Z.to_nat k <> K -> Z.to_nat k <> 1%nat -> K <> 1%nat ->
  polynomial_aggregation_ x coeff k mask = Err RuntimeError.
Proof.
  intros Hx Hc Hk H1 H2 H3. unfold polynomial_aggregation_.
  rewrite (expansion_degree_mismatch x coeff B T D Dc K k Hx Hc Hk
             (bdim_none _ _ H1 H2 H3)).
  reflexivity.
Qed.

Lemma degree_mismatch_raises_witness :
  polynomial_aggregation_ x_one coeff_first3 2 None = Err RuntimeError.
Proof.
  apply (degree_mismatch_raises x_one coeff_first3 1 1 1 1 3 2 None);
    try reflexivity; try lia; cbv; lia.
Defined.

(** X3. A coefficient tensor with a single column is accepted by the closed
    forms: it broadcasts over the powers, and entry (b, t, d) of the
    expansion is (h + ... + h^k) * coeff[d, 0] with h = gelu(x[b, t, d]). *)
Theorem single_column_coeff_broadcasts (x coeff : tensor) (B T D : nat) (k : Z) :
  shape x = [B; T; D] -> shape coeff = [D; 1%nat] ->
  (k = 2 \/ k = 3 \/ k = 4)%Z ->
  exists h, expansion x coeff k = Ok h /\ shape h = [B; T; D]
    /\ forall b t d, (b < B)%nat -> (t < T)%nat -> (d < D)%nat ->
       data h [b; t; d]
       = rsum (Z.to_nat k) (fun i => gelu (data x [b; t; d]) ^ S i)
         * data coeff [d; 0%nat].
Proof.
  destruct x as [sx dx], coeff as [sc dc]; cbn [shape]; intros -> -> Hk.
  destruct Hk as [-> | [-> | ->]]; cbn [expansion Z.eqb Pos.eqb].
  - change (Z.to_nat 2) with 2%nat.
    unfold po2, tmul, binop, broadcast_shapes, cat_last, sum_last. shapes.
    eexists. split; [reflexivity |]. split; [reflexivity |].
    intros b t d Hb Ht Hd. entries. unfold rsum, cat_data. entries. ring.
  - change (Z.to_nat 3) with 3%nat.
    unfold po3, tmul, binop, broadcast_shapes, cat_last, sum_last. shapes.
    eexists. split; [reflexivity |]. split; [reflexivity |].
    intros b t d Hb Ht Hd. entries. unfold rsum, cat_data. entries. ring.
  - change (Z.to_nat 4) with 4%nat.
    unfold po4, tmul, binop, broadcast_shapes, cat_last, sum_last. shapes.
    eexists. split; [reflexivity |]. split; [reflexivity |].
    intros b t d Hb Ht Hd. entries. unfold rsum, cat_data. entries. ring.
Qed.

Lemma single_column_coeff_broadcasts_witness :
  exists h, expansion x_one coeff_unit 2 = Ok h /\ shape h = [1; 1; 1]%nat
    /\ forall b t d, (b < 1)%nat -> (t < 1)%nat -> (d < 1)%nat ->
       data h [b; t; d]
       = rsum (Z.to_nat 2) (fun i => gelu (data x_one [b; t; d]) ^ S i)
         * data coeff_unit [d; 0%nat].
Proof.
  apply (single_column_coeff_broadcasts x_one coeff_unit 1 1 1 2).
  - reflexivity.
  - reflexivity.
  - left. reflexivity.
Defined.

Lemma rsum_mean_const (T : nat) (c : R) :
  (0 < T)%nat -> rsum T (fun _ => c) / INR T = c.
Proof.
  intros HT. rewrite rsum_const.
  assert (0 < INR T) by (apply lt_0_INR; exact HT).
  field. lra.
Qed.

(** X4. With order 1 the aggregation without mask does not depend on the
    input: every entry (b, t, d) is coeff[d, 0]. *)
Theorem order_one_ignores_input (x coeff : tensor) (B T D : nat) :
  shape x = [B; T; D] -> shape coeff = [D; 1%nat] ->
  exists r, polynomial_aggregation_ x coeff 1 None = Ok r
    /\ shape r = [B; T; D]
    /\ forall b t d, (b < B)%nat -> (t < T)%nat -> (d < D)%nat ->
       data r [b; t; d] = data coeff [d; 0%nat].
Proof.
  intros Hx Hc.
  destruct (generic_expansion_ok x coeff B T D Hx 1 eq_refl Hc)
    as [h [Hexp [Hh Hvh]]].
  destruct (aggregation_none x coeff h 1 B T D Hx Hexp Hh) as [r [Hr [Hs Hv]]].
  exists r. split; [exact Hr |]. split; [exact Hs |].
  intros b t d Hb Ht Hd. rewrite (Hv b t d Hb Ht Hd).
  rewrite (rsum_ext T _ (fun _ => data coeff [d; 0%nat])).
  - apply rsum_mean_const. lia.
  - intros n Hn. rewrite (Hvh b n d Hb Hn Hd).
    change (Z.to_nat 1) with 1%nat. unfold rsum. cbn [pow]. ring.
Qed.

Lemma order_one_ignores_input_witness :
  exists r, polynomial_aggregation_ chunk2 coeff_unit 1 None = Ok r
    /\ shape r = [1; 2; 1]%nat
    /\ forall b t d, (b < 1)%nat -> (t < 2)%nat -> (d < 1)%nat ->
       data r [b; t; d] = data coeff_unit [d; 0%nat].
Proof.
  apply (order_one_ignores_input chunk2 coeff_unit 1 2 1); reflexivity.
Defined.

(** X5. When the input is constant along the sequence, the aggregation
    without mask returns at every position the expansion of that constant
    position. *)
Theorem constant_sequence_mean (x coeff : tensor) (B T D : nat) (k : Z) :
  shape x = [B; T; D] -> shape coeff = [D; Z.to_nat k] -> (0 < k)%Z ->
  (forall b t d, (b < B)%nat -> (t < T)%nat -> (d < D)%nat ->
     data x [b; t; d] = data x [b; 0%nat; d]) ->
  exists h r,
    expansion x coeff k = Ok h
    /\ polynomial_aggregation_ x coeff k None = Ok r
    /\ shape r = [B; T; D]
    /\ forall b t d, (b < B)%nat -> (t < T)%nat -> (d < D)%nat ->
       data r [b; t; d] = data h [b; 0%nat; d].
Proof.
  intros Hx Hc Hk Hconst.
  destruct (expansion_entries x coeff B T D k Hx Hc Hk) as [h [Hexp [Hh Hvh]]].
  destruct (aggregation_none x coeff h k B T D Hx Hexp Hh) as [r [Hr [Hs Hv]]].
  exists h, r. repeat (split; [assumption |]).
  intros b t d Hb Ht Hd. rewrite (Hv b t d Hb Ht Hd).
  assert (HT : (0 < T)%nat) by lia.
  rewrite (rsum_ext T _ (fun _ => data h [b; 0%nat; d])).
  - apply rsum_mean_const. exact HT.
  - intros n Hn. rewrite (Hvh b n d Hb Hn Hd), (Hvh b 0%nat d Hb HT Hd).
    rewrite (Hconst b n d Hb Hn Hd). reflexivity.
Qed.

Lemma constant_sequence_mean_witness :
  exists h r,
    expansion chunk3 coeff_first2 2 = Ok h
    /\ polynomial_aggregation_ chunk3 coeff_first2 2 None = Ok r
    /\ shape r = [1; 3; 1]%nat
    /\ forall b t d, (b < 1)%nat -> (t < 3)%nat -> (d < 1)%nat ->
       data r [b; t; d] = data h [b; 0%nat; d].
Proof.
  apply (constant_sequence_mean chunk3 coeff_first2 1 3 1 2);
    try reflexivity.
  intros b t d Hb Ht Hd.
  assert (b = 0%nat) by lia. assert (d = 0%nat) by lia. subst.
  destruct t as [| [| [| t]]]; try reflexivity. lia.
Defined.

(** X6. For k in {2, 3, 4} an input that is zero everywhere aggregates to
    zero without mask, whatever the coefficients. *)
Theorem closed_forms_vanish_at_zero (x coeff : tensor) (B T D : nat) (k : Z) :
  shape x = [B; T; D] -> shape coeff = [D; Z.to_nat k] ->
  (k = 2 \/ k = 3 \/ k = 4)%Z ->
  (forall b t d, (b < B)%nat -> (t < T)%nat -> (d < D)%nat ->
     data x [b; t; d] = 0) ->
  exists r, polynomial_aggregation_ x coeff k None = Ok r
    /\ shape r = [B; T; D]
    /\ forall b t d, (b < B)%nat -> (t < T)%nat -> (d < D)%nat ->
       data r [b; t; d] = 0.
Proof.
  intros Hx Hc Hk Hzero.
  assert (Hpos : (0 < k)%Z) by lia.
  destruct (expansion_entries x coeff B T D k Hx Hc Hpos) as [h [Hexp [Hh Hvh]]].
  destruct (aggregation_none x coeff h k B T D Hx Hexp Hh) as [r [Hr [Hs Hv]]].
  exists r. split; [exact Hr |]. split; [exact Hs |].
  intros b t d Hb Ht Hd. rewrite (Hv b t d Hb Ht Hd).
  rewrite (rsum_zero T).
  - unfold Rdiv. apply Rmult_0_l.
  - intros n Hn. rewrite (Hvh b n d Hb Hn Hd), (Hzero b n d Hb Hn Hd).
    unfold poly. apply rsum_zero. intros i _.
    replace (first_power k) with 1%nat
      by (destruct Hk as [-> | [-> | ->]]; reflexivity).
    rewrite gelu_0. cbn [Nat.add pow]. ring.
Qed.

Lemma closed_forms_vanish_at_zero_witness :
  exists r, polynomial_aggregation_ x_zero coeff_first2 2 None = Ok r
    /\ shape r = [1; 1; 1]%nat
    /\ forall b t d, (b < 1)%nat -> (t < 1)%nat -> (d < 1)%nat ->
       data r [b; t; d] = 0.
Proof.
  apply (closed_forms_vanish_at_zero x_zero coeff_first2 1 1 1 2);
    try reflexivity.
  - left. reflexivity.
  - intros b t d Hb Ht Hd.
    assert (b = 0%nat) by lia. assert (t = 0%nat) by lia.
    assert (d = 0%nat) by lia. subst. reflexivity.
Defined.

(** ** Masks *)

Lemma rsum_single (T p : nat) (f : nat -> R) :
  (p < T)%nat -> (forall n, (n < T)%nat -> n <> p -> f n = 0) ->
  rsum T f = f p.
Proof.
  induction T as [| T IH]; intros Hp Hz; [lia |].
  change (rsum (S T) f) with (rsum T f + f T).
  destruct (Nat.eq_dec p T) as [-> | Hne].
  - rewrite (rsum_zero T f) by (intros i Hi; apply Hz; lia). lra.
  - rewrite IH by (try lia; intros i Hi Hip; apply Hz; lia).
    rewrite (Hz T) by lia. lra.
Qed.

(** X7. Under a (B, T) mask whose row b carries a single non-zero weight w,
    at position p, [mask_mixer] returns h[b, p, d] * w / (1e-7 + w) for
    batch row b. *)
Theorem mask_mixer_single_weight (h mask : tensor) (B T D b p : nat) (w : R) :
  shape h = [B; T; D] -> shape mask = [B; T] ->
  (b < B)%nat -> (p < T)%nat ->
  data mask [b; p] = w ->
  (forall n, (n < T)%nat -> n <> p -> data mask [b; n] = 0) ->
  exists r, mask_mixer h mask = Ok r /\ shape r = [B; 1%nat; D]
    /\ forall d, (d < D)%nat ->
       data r [b; 0%nat; d] = data h [b; p; d] * w / (eps + w).
Proof.
  intros Hh Hm Hb Hp Hw Hz.
  destruct (mask_mixer_ok h B T D Hh mask Hm) as [r [Hr [Hs Hv]]].
  exists r. split; [exact Hr |]. split; [exact Hs |].
  intros d Hd. rewrite (Hv b d Hb Hd).
  rewrite (rsum_single T p (fun n => data h [b; n; d] * data mask [b; n]) Hp).
  - rewrite (rsum_single T p (fun n => data mask [b; n]) Hp Hz), Hw.
    reflexivity.
  - intros n Hn Hnp. rewrite (Hz n Hn Hnp). apply Rmult_0_r.
Qed.

Lemma mask_mixer_single_weight_witness :
  exists r, mask_mixer chunk2 mask_second = Ok r /\ shape r = [1; 1; 1]%nat
    /\ forall d, (d < 1)%nat ->
       data r [0; 0; d]%nat = data chunk2 [0; 1; d]%nat * 2 / (eps + 2).
Proof.
  apply (mask_mixer_single_weight chunk2 mask_second 1 2 1 0 1 2);
    try reflexivity; try lia.
  intros n Hn Hne. assert (n = 0%nat) by lia. subst. reflexivity.
Defined.

(** X8. A 2D mask whose length Tm differs from the sequence length T, neither
    being 1, makes the aggregation raise. *)
Theorem mask_length_mismatch_raises (x coeff mask : tensor) (k : Z)
  (B T D Bm Tm : nat) :
  shape x = [B; T; D] -> shape coeff = [D; Z.to_nat k] -> (0 < k)%Z ->
  shape mask = [Bm; Tm] ->
  Tm <> T -> Tm <> 1%nat -> T <> 1%nat ->
  polynomial_aggregation_ x coeff k (Some mask) = Err RuntimeError.
Proof.
  intros Hx Hc Hk Hm H1 H2 H3.
  destruct (expansion_shape x coeff B T D k Hx Hc Hk) as [h [Hexp Hh]].
  unfold polynomial_aggregation_. rewrite Hexp. cbn [bind reduce].
  unfold dim. rewrite Hm. cbn [length Nat.eqb].
  destruct h as [sh dh], mask as [sm dm]; cbn [shape] in Hh, Hm; subst.
  unfold mask_mixer, tmul, binop, broadcast_shapes. shapes.
  rewrite (bdim_none T Tm) by auto. reflexivity.
Qed.

Lemma mask_length_mismatch_raises_witness :
  polynomial_aggregation_ chunk3 coeff_first2 2 (Some (ones [1; 2]%nat))
  = Err RuntimeError.
Proof.
  apply (mask_length_mismatch_raises chunk3 coeff_first2 (ones [1; 2]%nat) 2
           1 3 1 1 2); try reflexivity; lia.
Defined.

(** X9. With a mask of shape (B, T, T) the aggregation succeeds with the
    input's shape, and entry (b, m, d) is the mean of the expansion weighted
    by row m of the mask, with 1e-7 added to the sum of the weights. *)
Theorem pairwise_mask_square (x coeff mask : tensor) (k : Z) (B T D : nat) :
  shape x = [B; T; D] -> shape coeff = [D; Z.to_nat k] -> (0 < k)%Z ->
  shape mask = [B; T; T] ->
  exists h r,
    expansion x coeff k = Ok h
    /\ polynomial_aggregation_ x coeff k (Some mask) = Ok r
    /\ shape r = [B; T; D]
    /\ forall b m d, (b < B)%nat -> (m < T)%nat -> (d < D)%nat ->
       data r [b; m; d]
       = rsum T (fun n => data h [b; n; d] * data mask [b; m; n])
         / (eps + rsum T (fun n => data mask [b; m; n])).
Proof.
  intros Hx Hc Hk Hm.
  destruct (expansion_shape x coeff B T D k Hx Hc Hk) as [h [Hexp Hh]].
  destruct (aggregation_mask3_square x coeff h k B T D Hx Hexp Hh mask Hm)
    as [r [Hr [Hs Hv]]].
  exists h, r. auto.
Qed.

Lemma pairwise_mask_square_witness :
  exists h r,
    expansion chunk2 coeff_first2 2 = Ok h
    /\ polynomial_aggregation_ chunk2 coeff_first2 2
         (Some (ones [1; 2; 2]%nat)) = Ok r
    /\ shape r = [1; 2; 1]%nat
    /\ forall b m d, (b < 1)%nat -> (m < 2)%nat -> (d < 1)%nat ->
       data r [b; m; d]
       = rsum 2 (fun n => data h [b; n; d]
                          * data (ones [1; 2; 2]%nat) [b; m; n])
         / (eps + rsum 2 (fun n => data (ones [1; 2; 2]%nat) [b; m; n])).
Proof.
  apply (pairwise_mask_square chunk2 coeff_first2 (ones [1; 2; 2]%nat) 2 1 2 1);
    try reflexivity.
Defined.

Lemma rsum_prefix (T m : nat) (f : nat -> R) :
  (m < T)%nat ->
  rsum T (fun n => if (n <=? m)%nat then f n else 0) = rsum (S m) f.
Proof.
  induction T as [| T IH]; intros Hm; [lia |].
  change (rsum (S T) (fun n => if (n <=? m)%nat then f n else 0))
    with (rsum T (fun n => if (n <=? m)%nat then f n else 0)
          + (if (T <=? m)%nat then f T else 0)).
  destruct (Nat.eq_dec m T) as [-> | Hne].
  - rewrite Nat.leb_refl.
    change (rsum (S T) f) with (rsum T f + f T). f_equal.
    apply rsum_ext. intros n Hn.
    destruct (Nat.leb_spec n T); [reflexivity | lia].
  - rewrite IH by lia.
    destruct (Nat.leb_spec T m); [lia | lra].
Qed.

(** X10. Under a lower-triangular (B, T, T) mask of ones, position m
    receives the sum of the expansion over the positions 0..m divided by
    1e-7 + m + 1: later positions have no influence on it. *)
Theorem causal_mask_prefix_mean (x coeff mask : tensor) (k : Z) (B T D : nat) :
  shape x = [B; T; D] -> shape coeff = [D; Z.to_nat k] -> (0 < k)%Z ->
  shape mask = [B; T; T] ->
  (forall b m n, (b < B)%nat -> (m < T)%nat -> (n < T)%nat ->
     data mask [b; m; n] = if (n <=? m)%nat then 1 else 0) ->
  exists h r,
    expansion x coeff k = Ok h
    /\ polynomial_aggregation_ x coeff k (Some mask) = Ok r
    /\ forall b m d, (b < B)%nat -> (m < T)%nat -> (d < D)%nat ->
       data r [b; m; d]
       = rsum (S m) (fun n => data h [b; n; d]) / (eps + INR (S m)).
Proof.
  intros Hx Hc Hk Hm Htril.
  destruct (expansion_shape x coeff B T D k Hx Hc Hk) as [h [Hexp Hh]].
  destruct (aggregation_mask3_square x coeff h k B T D Hx Hexp Hh mask Hm)
    as [r [Hr [_ Hv]]].
  exists h, r. split; [exact Hexp |]. split; [exact Hr |].
  intros b m d Hb Hm' Hd. rewrite (Hv b m d Hb Hm' Hd).
  rewrite (rsum_ext T _ (fun n => if (n <=? m)%nat then data h [b; n; d] else 0)).
  2: { intros n Hn. rewrite (Htril b m n Hb Hm' Hn).
       destruct (n <=? m)%nat; ring. }
  rewrite (rsum_ext T (fun n => data mask [b; m; n])
             (fun n => if (n <=? m)%nat then 1 else 0)).
  2: { intros n Hn. exact (Htril b m n Hb Hm' Hn). }
  rewrite (rsum_prefix T m (fun n => data h [b; n; d]) Hm').
  rewrite (rsum_prefix T m (fun _ => 1) Hm'), rsum_const, Rmult_1_r.
  reflexivity.
Qed.

Lemma causal_mask_prefix_mean_witness :
  exists h r,
    expansion chunk2 coeff_first2 2 = Ok h
    /\ polynomial_aggregation_ chunk2 coeff_first2 2 (Some tril2) = Ok r
    /\ forall b m d, (b < 1)%nat -> (m < 2)%nat -> (d < 1)%nat ->
       data r [b; m; d]
       = rsum (S m) (fun n => data h [b; n; d]) / (eps + INR (S m)).
Proof.
  apply (causal_mask_prefix_mean chunk2 coeff_first2 tril2 2 1 2 1);
    try reflexivity.
  intros b m n Hb Hm Hn. assert (b = 0%nat) by lia. subst.
  destruct m as [| [| m]]; destruct n as [| [| n]]; try lia; reflexivity.
Defined.

(** X11. With a mask of shape (B, 1, T), a single query row, the
    aggregation succeeds and the final expand repeats that row's weighted
    mean at each of the T positions. *)
Theorem pairwise_mask_single_query (x coeff mask : tensor) (k : Z) (B T D : nat) :
  shape x = [B; T; D] -> shape coeff = [D; Z.to_nat k] -> (0 < k)%Z ->
  shape mask = [B; 1%nat; T] ->
  exists h r,
    expansion x coeff k = Ok h
    /\ polynomial_aggregation_ x coeff k (Some mask) = Ok r
    /\ shape r = [B; T; D]
    /\ forall b t d, (b < B)%nat -> (t < T)%nat -> (d < D)%nat ->
       data r [b; t; d]
       = rsum T (fun n => data h [b; n; d] * data mask [b; 0%nat; n])
         / (eps + rsum T (fun n => data mask [b; 0%nat; n])).
Proof.
  intros Hx Hc Hk Hm.
  destruct (expansion_shape x coeff B T D k Hx Hc Hk) as [h [Hexp Hh]].
  destruct (full_mask_mixer_ok h B T D Hh mask 1 Hm) as [q [Hq [Hsq Hvq]]].
  destruct (expand_row q B T D Hsq) as [r [Hr [Hs Hv]]].
  exists h, r. split; [exact Hexp |]. split.
  - unfold polynomial_aggregation_. rewrite Hexp, Hx. cbn [bind reduce].
    unfold dim. rewrite Hm. cbn [length Nat.eqb]. rewrite Hq. exact Hr.
  - split; [exact Hs |].
    intros b t d Hb Ht Hd. rewrite (Hv b t d Hb Ht Hd).
    apply Hvq; [exact Hb | lia | exact Hd].
Qed.

Lemma pairwise_mask_single_query_witness :
  exists h r,
    expansion chunk2 coeff_first2 2 = Ok h
    /\ polynomial_aggregation_ chunk2 coeff_first2 2
         (Some (ones [1; 1; 2]%nat)) = Ok r
    /\ shape r = [1; 2; 1]%nat
    /\ forall b t d, (b < 1)%nat -> (t < 2)%nat -> (d < 1)%nat ->
       data r [b; t; d]
       = rsum 2 (fun n => data h [b; n; d]
                          * data (ones [1; 1; 2]%nat) [b; 0%nat; n])
         / (eps + rsum 2 (fun n => data (ones [1; 1; 2]%nat) [b; 0%nat; n])).
Proof.
  apply (pairwise_mask_single_query chunk2 coeff_first2 (ones [1; 1; 2]%nat)
           2 1 2 1); reflexivity.
Defined.

(** ** The layer *)

(** X12. Without mask or with a (B, T) mask, [forward] on a context of shape
    (B, T, dim) succeeds with an output of shape (B, T, dim) whose entries do
    not depend on the position t. *)
Theorem forward_position_independent (m : ComPoM) (xq xc : tensor)
  (mask : option tensor) (B T : nat) :
  constructed m -> (0 < order m)%Z ->
  shape xc = [B; T; dim_ m] ->
  match mask with
  | None => True
  | Some mk => shape mk = [B; T]
  end ->
  exists out,
    forward m xq (Some xc) mask = Ok out
    /\ shape out = [B; T; dim_ m]
    /\ forall b t t' o, (b < B)%nat -> (t < T)%nat -> (t' < T)%nat ->
       data out [b; t; o] = data out [b; t'; o].
Proof.
  intros Hm Hk Hxc Hmask.
  destruct Hm as [Hin [Hout [Hc [Hin' Hout']]]].
  destruct (linear_ok (po_proj m) xc B T) as [y [Hy [Hsy _]]].
  { rewrite Hin. exact Hxc. }
  rewrite Hout in Hsy. rewrite Nat.mul_comm in Hc.
  set (D' := (order_expand m * dim_ m)%nat) in *.
  destruct (expansion_shape y (po_coeff m) B T D' (order m) Hsy Hc Hk)
    as [h [Hexp Hh]].
  assert (Hagg : exists r (v : nat -> nat -> R),
             polynomial_aggregation_ y (po_coeff m) (order m) mask = Ok r
             /\ shape r = [B; T; D']
             /\ forall b t d, (b < B)%nat -> (t < T)%nat -> (d < D')%nat ->
                data r [b; t; d] = v b d).
  { destruct mask as [mk |].
    - destruct (aggregation_mask2 y (po_coeff m) h (order m) B T D' Hsy Hexp Hh
                  mk Hmask) as [r [Hr [Hs Hv]]].
      exists r. eexists (fun b d => _). split; [exact Hr |]. split; [exact Hs |].
      intros b t d Hb Ht Hd. rewrite (Hv b t d Hb Ht Hd). reflexivity.
    - destruct (aggregation_none y (po_coeff m) h (order m) B T D' Hsy Hexp Hh)
        as [r [Hr [Hs Hv]]].
      exists r. eexists (fun b d => _). split; [exact Hr |]. split; [exact Hs |].
      intros b t d Hb Ht Hd. rewrite (Hv b t d Hb Ht Hd). reflexivity. }
  destruct Hagg as [r [v [Hr [Hs Hv]]]].
  destruct (linear_ok (ag_proj m) r B T) as [out [Ho [Hso Hvo]]].
  { rewrite Hin'. exact Hs. }
  exists out. split.
  - unfold forward, pom. rewrite Hy. cbn [bind]. rewrite Hr. cbn [bind].
    exact Ho.
  - split; [rewrite Hso, Hout'; reflexivity |].
    intros b t t' o Hb Ht Ht'. rewrite !Hvo. unfold projected. f_equal.
    apply rsum_ext. intros i Hi. rewrite Hin' in Hi.
    rewrite (Hv b t i Hb Ht Hi), (Hv b t' i Hb Ht' Hi). reflexivity.
Qed.

Lemma forward_position_independent_witness :
  exists out,
    forward unit_module x_zero (Some chunk3) (Some (ones [1; 3]%nat)) = Ok out
    /\ shape out = [1; 3; 1]%nat
    /\ forall b t t' o, (b < 1)%nat -> (t < 3)%nat -> (t' < 3)%nat ->
       data out [b; t; o] = data out [b; t'; o].
Proof.
  apply (forward_position_independent unit_module x_zero chunk3
           (Some (ones [1; 3]%nat)) 1 3).
  - exact unit_module_constructed.
  - reflexivity.
  - reflexivity.
  - reflexivity.
Defined.

(** X13. A context whose last dimension is not [dim] makes [forward] and
    [state_forward] raise, whatever the query, the mask and the state. *)
Theorem wrong_channel_count_raises (m : ComPoM) (xq xc : tensor)
  (mask : option tensor) (st : option state) (B T n : nat) :
  constructed m ->
  shape xc = [B; T; n] -> n <> dim_ m ->
  forward m xq (Some xc) mask = Err RuntimeError
  /\ state_forward m xq (Some xc) st = Err RuntimeError.
Proof.
  intros [Hin _] Hxc Hn.
  assert (H : linear (po_proj m) xc = Err RuntimeError).
  { unfold linear. rewrite Hxc, Hin. cbn [rev app].
    destruct (Nat.eqb_spec n (dim_ m)); [contradiction | reflexivity]. }
  unfold forward, state_forward. rewrite H. split; reflexivity.
Qed.

Lemma wrong_channel_count_raises_witness :
  forward unit_module x_zero (Some (ones [1; 2; 3]%nat)) None = Err RuntimeError
  /\ state_forward unit_module x_zero (Some (ones [1; 2; 3]%nat)) None
     = Err RuntimeError.
Proof.
  apply (wrong_channel_count_raises unit_module x_zero (ones [1; 2; 3]%nat)
           None None 1 2 3).
  - exact unit_module_constructed.
  - reflexivity.
  - cbv. lia.
Defined.

Lemma expandable_rev_length (s tgt : list nat) :
  expandable_rev s tgt = true -> (length s <= length tgt)%nat.
Proof.
  revert tgt. induction s as [| a s IH]; intros tgt H; [cbn; lia |].
  destruct tgt as [| b tgt]; [discriminate |].
  cbn in H. apply andb_prop in H. destruct H as [_ H].
  apply IH in H. cbn [length]. lia.
Qed.

(** Without a mask a successful aggregation has rank at least 2. *)
Lemma polynomial_aggregation_rank (x coeff r : tensor) (k : Z) :
  polynomial_aggregation_ x coeff k None = Ok r -> (2 <= dim r)%nat.
Proof.
  unfold polynomial_aggregation_. intros H.
  apply bind_ok in H. destruct H as [h [_ H]].
  apply bind_ok in H. destruct H as [q [Hq H]].
  cbn [reduce] in Hq. unfold mean_keep in Hq.
  destruct (nth_error (shape h) 1) as [n |] eqn:Hn; [| discriminate].
  injection Hq as <-.
  assert (Hlen : (1 < length (shape h))%nat).
  { apply nth_error_Some. rewrite Hn. discriminate. }
  unfold expand in H. cbn [shape] in H.
  destruct (expandable_rev _ _) eqn:He; [| discriminate].
  injection H as <-. unfold dim. cbn [shape].
  apply expandable_rev_length in He.
  rewrite !length_rev in He.
  destruct (shape h) as [| a [| b l]]; cbn [length] in *; lia.
Qed.

(** X14. [forward] without mask returns an output exactly when
    [state_forward] without prior state returns that output (with some
    state). *)
Theorem first_call_is_forward (m : ComPoM) (xq : tensor) (xc : option tensor)
  (out : tensor) :
  forward m xq xc None = Ok out
  <-> exists st, state_forward m xq xc None = Ok (out, st).
Proof.
  unfold forward, state_forward, pom.
  set (c := match xc with None => xq | Some c => c end).
  split.
  - intros H.
    apply bind_ok in H. destruct H as [y [Hy H]].
    apply bind_ok in H. destruct H as [sh [Hsh H]].
    rewrite Hy. cbn [bind]. rewrite Hsh. cbn [bind].
    pose proof (polynomial_aggregation_rank _ _ _ _ Hsh) as Hrank.
    unfold shape_at.
    destruct (nth_error (shape sh) 1) as [n |] eqn:Hn.
    + cbn [bind]. rewrite H. cbn [bind]. eexists. reflexivity.
    + apply nth_error_None in Hn. unfold dim in Hrank. lia.
  - intros [st H].
    apply bind_ok in H. destruct H as [y [Hy H]].
    apply bind_ok in H. destruct H as [hc [Hhc H]].
    apply bind_ok in H. destruct H as [n [_ H]].
    cbn [bind] in H.
    apply bind_ok in H. destruct H as [o [Ho H]].
    injection H as <- _.
    rewrite Hy. cbn [bind]. rewrite Hhc. cbn [bind]. exact Ho.
Qed.

Lemma first_call_is_forward_witness :
  exists out st,
    forward unit_module chunk2 None None = Ok out
    /\ state_forward unit_module chunk2 None None = Ok (out, st).
Proof.
  eexists.
  destruct (proj1 (first_call_is_forward unit_module chunk2 None _) eq_refl)
    as [st Hst].
  exists st. split; [reflexivity | exact Hst].
Defined.

Section EqualChunks.

Variables (m : ComPoM) (B T : nat).
Hypothesis Hm : constructed m.
Hypothesis Hk : (0 < order m)%Z.
Hypothesis HT : (0 < T)%nat.

Let D' := (order_expand m * dim_ m)%nat.

(** Count times aggregate is the running total: each chunk adds T times
    its mean. *)
Lemma stream_equal_chunks (cs : list tensor) :
  Forall (fun c => shape c = [B; T; dim_ m]) cs ->
  forall s, shape (st_h s) = [B; T; D'] ->
  exists st,
    stream m cs (Some s) = Ok (Some st)
    /\ shape (st_h st) = [B; T; D']
    /\ st_n st = (st_n s + length cs * T)%nat
    /\ forall b t d, (b < B)%nat -> (t < T)%nat -> (d < D')%nat ->
       INR (st_n st) * data (st_h st) [b; t; d]
       = INR (st_n s) * data (st_h s) [b; t; d]
         + INR T * sum_chunk_means m cs b d.
Proof.
  induction 1 as [| c cs Hc _ IH]; intros s Hs.
  - exists s. split; [reflexivity |]. split; [exact Hs |].
    split; [cbn; lia |].
    intros b t d _ _ _. cbn [sum_chunk_means fold_right]. ring.
  - destruct (state_forward_next m B T Hm Hk c c s T T Hc Hs (bdim_refl T))
      as [o [s1 [H1 [_ [Hs1 [Hn1 Hv1]]]]]].
    destruct (IH s1 Hs1) as [st [Hst [Hsst [Hnst Hvst]]]].
    exists st. split.
    { cbn [stream]. change (state_forward m c None (Some s))
        with (state_forward m c (Some c) (Some s)).
      rewrite H1. exact Hst. }
    split; [exact Hsst |].
    split; [rewrite Hnst, Hn1; cbn [length]; lia |].
    intros b t d Hb Ht Hd.
    rewrite (Hvst b t d Hb Ht Hd), (Hv1 b t d Hb Ht Hd), Hn1.
    rewrite (bi_lt T t Ht).
    cbn [sum_chunk_means fold_right].
    fold (sum_chunk_means m cs b d).
    assert (0 < INR T) by (apply lt_0_INR; exact HT).
    assert (0 <= INR (st_n s)) by apply pos_INR.
    rewrite plus_INR. field. lra.
Qed.

End EqualChunks.

(** X15. Streaming one or more chunks that all have shape (B, T, dim),
    T >= 1, from no state succeeds; the final count is the number of chunks
    times T and every entry of the final aggregate is the average of the
    chunks' means. *)
Theorem streaming_equal_chunks_mean (m : ComPoM) (c : tensor)
  (cs : list tensor) (B T : nat) :
  constructed m -> (0 < order m)%Z -> (0 < T)%nat ->
  Forall (fun c => shape c = [B; T; dim_ m]) (c :: cs) ->
  exists st,
    stream m (c :: cs) None = Ok (Some st)
    /\ st_n st = (length (c :: cs) * T)%nat
    /\ shape (st_h st) = [B; T; (order_expand m * dim_ m)%nat]
    /\ forall b t d, (b < B)%nat -> (t < T)%nat ->
       (d < order_expand m * dim_ m)%nat ->
       data (st_h st) [b; t; d]
       = sum_chunk_means m (c :: cs) b d / INR (length (c :: cs)).
Proof.
  intros Hm Hk HT Hall.
  inversion Hall as [| ? ? Hc Hcs]; subst.
  destruct (state_forward_first m B T Hm Hk c c Hc)
    as [o [s1 [H1 [_ [Hs1 [Hn1 Hv1]]]]]].
  destruct (stream_equal_chunks m B T Hm Hk HT cs Hcs s1 Hs1)
    as [st [Hst [Hsst [Hnst Hvst]]]].
  exists st. split.
  { cbn [stream]. change (state_forward m c None None)
      with (state_forward m c (Some c) None).
    rewrite H1. exact Hst. }
  split; [rewrite Hnst, Hn1; cbn [length]; lia |].
  split; [exact Hsst |].
  intros b t d Hb Ht Hd.
  pose proof (Hvst b t d Hb Ht Hd) as Hv.
  rewrite (Hv1 b t d Hb Ht Hd), Hnst, Hn1 in Hv.
  cbn [sum_chunk_means fold_right]. fold (sum_chunk_means m cs b d).
  assert (H0 : 0 < INR T) by (apply lt_0_INR; exact HT).
  assert (Hl : 0 <= INR (length cs)) by apply pos_INR.
  replace (T + length cs * T)%nat with (S (length cs) * T)%nat in Hv by lia.
  rewrite mult_INR, S_INR in Hv.
  cbn [length]. rewrite S_INR.
  apply Rmult_eq_reg_l with (INR T * (INR (length cs) + 1)); [| nra].
  field_simplify; [| lra].
  rewrite <- Hv. ring.
Qed.

Lemma streaming_equal_chunks_mean_witness :
  exists st,
    stream unit_module [chunk2; chunk2; chunk2] None = Ok (Some st)
    /\ st_n st = 6%nat
    /\ shape (st_h st) = [1; 2; 1]%nat
    /\ forall b t d, (b < 1)%nat -> (t < 2)%nat -> (d < 1)%nat ->
       data (st_h st) [b; t; d]
       = sum_chunk_means unit_module [chunk2; chunk2; chunk2] b d / INR 3.
Proof.
  apply (streaming_equal_chunks_mean unit_module chunk2 [chunk2; chunk2] 1 2).
  - exact unit_module_constructed.
  - reflexivity.
  - lia.
  - repeat constructor.
Defined.

(** ** Two chunks against the whole sequence *)

Lemma streaming_matches_one_shot_witness :
  exists o1 s1 o2 s2 y whole,
    state_forward unit_module chunk2 None None = Ok (o1, s1)
    /\ state_forward unit_module chunk2 None (Some s1) = Ok (o2, s2)
    /\ linear (po_proj unit_module) (cat_seq chunk2 chunk2) = Ok y
    /\ polynomial_aggregation_ y (po_coeff unit_module) (order unit_module) None
       = Ok whole
    /\ st_n s2 = 4%nat
    /\ forall b t t' d,
         (b < 1)%nat -> (t < 2)%nat -> (t' < 4)%nat -> (d < 1)%nat ->
         data (st_h s2) [b; t; d] = data whole [b; t'; d].
Proof.
  apply (streaming_matches_one_shot unit_module chunk2 chunk2 1 2 2 2).
  - exact unit_module_constructed.
  - reflexivity.
  - reflexivity.
  - reflexivity.
  - lia.
  - lia.
  - reflexivity.
Defined.

(** X17. A call on a chunk of a single position with a prior aggregate of
    shape (B, Tp, D') succeeds, adds 1 to the count, and returns an output
    and an aggregate that keep the prior length Tp. *)
Theorem single_position_step_keeps_prior_length (m : ComPoM) (xq xc : tensor)
  (s : state) (B Tp : nat) :
  constructed m -> (0 < order m)%Z ->
  shape xc = [B; 1%nat; dim_ m] ->
  shape (st_h s) = [B; Tp; (order_expand m * dim_ m)%nat] ->
  exists out st,
    state_forward m xq (Some xc) (Some s) = Ok (out, st)
    /\ shape out = [B; Tp; dim_ m]
    /\ shape (st_h st) = [B; Tp; (order_expand m * dim_ m)%nat]
    /\ st_n st = (st_n s + 1)%nat.
Proof.
  intros Hm Hk Hxc Hs.
  destruct (state_forward_next m B 1 Hm Hk xq xc s Tp Tp Hxc Hs (bdim_1_r Tp))
    as [out [st [H [Ho [Hst [Hn _]]]]]].
  exists out, st. auto.
Qed.

Lemma single_position_step_keeps_prior_length_witness :
  exists s0 out st,
    shape (st_h s0) = [1; 3; 1]%nat
    /\ state_forward unit_module x_zero (Some x_one) (Some s0) = Ok (out, st)
    /\ shape out = [1; 3; 1]%nat
    /\ shape (st_h st) = [1; 3; 1]%nat
    /\ st_n st = (st_n s0 + 1)%nat.
Proof.
  exists (mkState chunk3 3).
  destruct (single_position_step_keeps_prior_length unit_module x_zero x_one
              (mkState chunk3 3) 1 3 unit_module_constructed eq_refl eq_refl
              eq_refl) as [out [st H]].
  exists out, st. split; [reflexivity | exact H].
Defined.

(** X18. With a mask of shape (B, T) the aggregation succeeds with the
    input's shape and every position (b, t, d) receives the mean of the
    expansion over the sequence weighted by row b of the mask, with 1e-7
    added to the sum of the weights. *)
Theorem padding_mask_weighted_mean (x coeff mask : tensor) (k : Z)
  (B T D : nat) :
  shape x = [B; T; D] -> shape coeff = [D; Z.to_nat k] -> (0 < k)%Z ->
  shape mask = [B; T] ->
  exists h r,
    expansion x coeff k = Ok h
    /\ polynomial_aggregation_ x coeff k (Some mask) = Ok r
    /\ shape r = [B; T; D]
    /\ forall b t d, (b < B)%nat -> (t < T)%nat -> (d < D)%nat ->
       data r [b; t; d]
       = rsum T (fun n => data h [b; n; d] * data mask [b; n])
         / (eps + rsum T (fun n => data mask [b; n])).
Proof.
  intros Hx Hc Hk Hm.
  destruct (expansion_shape x coeff B T D k Hx Hc Hk) as [h [Hexp Hh]].
  destruct (aggregation_mask2 x coeff h k B T D Hx Hexp Hh mask Hm)
    as [r [Hr [Hs Hv]]].
  exists h, r. auto.
Qed.

Lemma padding_mask_weighted_mean_witness :
  exists h r,
    expansion chunk2 coeff_first2 2 = Ok h
    /\ polynomial_aggregation_ chunk2 coeff_first2 2 (Some mask_second) = Ok r
    /\ shape r = [1; 2; 1]%nat
    /\ forall b t d, (b < 1)%nat -> (t < 2)%nat -> (d < 1)%nat ->
       data r [b; t; d]
       = rsum 2 (fun n => data h [b; n; d] * data mask_second [b; n])
         / (eps + rsum 2 (fun n => data mask_second [b; n])).
Proof.
  apply (padding_mask_weighted_mean chunk2 coeff_first2 mask_second 2 1 2 1);
    reflexivity.
Defined.
